(** * go-plist: the type-directed decode engine (unmarshal.go)

    A shallow embedding of the decode engine of the property-list library.
    The engine walks a parsed document tree ([cfValue]) and a destination
    reached through Go's [reflect] package.  A destination is modelled as a
    pair of its static type ([rtype]) and its current contents ([rvalue]);
    a function that writes through a [reflect.Value] takes the old contents
    and returns the new ones, together with what the Go call did: returned
    an [error] (possibly nil) or panicked.

    Conventions:
    - the platform is 64-bit: [int], [uint] and [uintptr] are 64 bits wide;
    - destinations form a tree (no two handles alias the same memory);
    - destination types are finite trees (no recursive type definitions);
    - the key of a destination map is identified with the text it was
      converted from. *)

From Stdlib Require Import ZArith Lia Ascii String Floats.SpecFloat.
From stdpp Require Import base option list strings gmap.

#[local] Set Warnings "-register-all".
#[local] Open Scope Z_scope.

(** ** Machine integers *)

Definition wrap_unsigned (bits : Z) (x : Z) : Z := x mod 2 ^ bits.

Definition wrap_signed (bits : Z) (x : Z) : Z :=
  (x + 2 ^ (bits - 1)) mod 2 ^ bits - 2 ^ (bits - 1).

(** Go's conversions [int64(x)] and [uint64(x)]. *)
Definition int64 (x : Z) : Z := wrap_signed 64 x.
Definition uint64 (x : Z) : Z := wrap_unsigned 64 x.

(** Arithmetic on Go's [int]. *)
Definition int_add (a b : Z) : Z := wrap_signed 64 (a + b).
Definition int_mul (a b : Z) : Z := wrap_signed 64 (a * b).
Definition int_div (a b : Z) : Z := wrap_signed 64 (a ÷ b).

(** Go's conversion [float32(x)] of a 64-bit float: round to nearest even
    into the binary32 format. *)
Definition float32 (x : spec_float) : spec_float :=
  match x with
  | S754_finite s m e => binary_normalize 24 128 (cond_Zopp s (Zpos m)) e s
  | _ => x
  end.

(** ** Time *)

Inductive Location := UTC | Local | FixedZone (name : string) (offset : Z).

Record Time := { instant : Z; location : Location }.

(** [t.In(loc)]: the same instant, shown in another location. *)
Definition Time_In (t : Time) (loc : Location) : Time :=
  {| instant := instant t; location := loc |}.

Definition zeroTime : Time := {| instant := 0; location := UTC |}.

(** ** The document tree *)

(** Modelled from the spec: the declarations of the node types are not part
    of unmarshal.go.  Section 3 of the specification gives the node kinds
    and their payloads; a Dictionary is an ordered sequence of (key, value)
    pairs, so [dict.keys] is the sequence of first components and
    [dict.values[i]] the second component of the i-th pair.  [cfNil] is the
    nil interface value (an absent node); [cfOther] stands for any
    implementation of the node interface outside the nine known kinds. *)
Inductive cfValue :=
| cfNil
| cfString (s : string)
| cfNumber (signed : bool) (value : Z)
| cfReal (wide : bool) (value : spec_float)
| cfBoolean (b : bool)
| cfData (b : list Byte.byte)
| cfDate (t : Time)
| cfUID (u : Z)
| cfArray (values : list cfValue)
| cfDictionary (entries : list (string * cfValue))
| cfOther (goType : string).

(** Modelled from the spec: [typeName] is declared with the node types;
    it gives "the node's kind name" carried by type-mismatch errors. *)
Definition typeName (pval : cfValue) : string :=
  match pval with
  | cfNil => "nil"
  | cfString _ => "string"
  | cfNumber _ _ => "integer"
  | cfReal _ _ => "real"
  | cfBoolean _ => "boolean"
  | cfData _ => "data"
  | cfDate _ => "date"
  | cfUID _ => "uid"
  | cfArray _ => "array"
  | cfDictionary _ => "dictionary"
  | cfOther n => n
  end.

(** ** Reflection: kinds, types and values *)

Module reflect.

Inductive Kind :=
| Invalid | Bool
| Int | Int8 | Int16 | Int32 | Int64
| Uint | Uint8 | Uint16 | Uint32 | Uint64 | Uintptr
| Float32 | Float64 | Complex64 | Complex128
| Array | Chan | Func | Interface | Map | Ptr | Slice | String | Struct
| UnsafePointer.

End reflect.

(** The kinds of types that have no component types. *)
Inductive basicKind :=
| BBool
| BInt | BInt8 | BInt16 | BInt32 | BInt64
| BUint | BUint8 | BUint16 | BUint32 | BUint64 | BUintptr
| BFloat32 | BFloat64 | BComplex64 | BComplex128
| BChan | BFunc | BString | BUnsafePointer.

Definition basicKind_Kind (b : basicKind) : reflect.Kind :=
  match b with
  | BBool => reflect.Bool
  | BInt => reflect.Int | BInt8 => reflect.Int8 | BInt16 => reflect.Int16
  | BInt32 => reflect.Int32 | BInt64 => reflect.Int64
  | BUint => reflect.Uint | BUint8 => reflect.Uint8 | BUint16 => reflect.Uint16
  | BUint32 => reflect.Uint32 | BUint64 => reflect.Uint64
  | BUintptr => reflect.Uintptr
  | BFloat32 => reflect.Float32 | BFloat64 => reflect.Float64
  | BComplex64 => reflect.Complex64 | BComplex128 => reflect.Complex128
  | BChan => reflect.Chan | BFunc => reflect.Func
  | BString => reflect.String | BUnsafePointer => reflect.UnsafePointer
  end.

(** A destination type.  [name] is the name of a defined type (empty for a
    type literal).  [TUID] is the library's [UID] (declared [type UID uint64])
    and [TTime] is [time.Time]; the engine compares types against these two
    only.  A struct lists, per field, its name, whether it is exported, and
    its type. *)
Inductive rtype :=
| TBasic (name : string) (k : basicKind)
| TUID
| TTime
| TSlice (name : string) (elem : rtype)
| TArray (name : string) (len : nat) (elem : rtype)
| TMap (name : string) (key elem : rtype)
| TPtr (elem : rtype)
| TStruct (name : string) (fields : list (string * bool * rtype))
| TInterface (name : string) (numMethod : nat).

(** The contents of a destination.  A slice is its backing array together
    with its length (the capacity is the length of the backing array); a map
    is nil or a finite map; a pointer is nil or owns its target; an interface
    is nil or holds a dynamic type and a value of it. *)
Inductive rvalue :=
| VBool (b : bool)
| VInt (i : Z)
| VUint (u : Z)
| VFloat (f : spec_float)
| VString (s : string)
| VTime (t : Time)
| VSlice (backing : list rvalue) (len : nat)
| VArray (elems : list rvalue)
| VMap (m : option (gmap string rvalue))
| VPtr (target : option rvalue)
| VStruct (fields : list rvalue)
| VInterface (dynamic : option (rtype * rvalue))
| VOpaque.

Definition Kind (typ : rtype) : reflect.Kind :=
  match typ with
  | TBasic _ k => basicKind_Kind k
  | TUID => reflect.Uint64
  | TTime => reflect.Struct
  | TSlice _ _ => reflect.Slice
  | TArray _ _ _ => reflect.Array
  | TMap _ _ _ => reflect.Map
  | TPtr _ => reflect.Ptr
  | TStruct _ _ => reflect.Struct
  | TInterface _ _ => reflect.Interface
  end.

(** [reflect.New(typ).Elem()]: the zero value of a type. *)
Fixpoint zero (typ : rtype) : rvalue :=
  match typ with
  | TBasic _ k =>
      match basicKind_Kind k with
      | reflect.Bool => VBool false
      | reflect.Int | reflect.Int8 | reflect.Int16 | reflect.Int32
      | reflect.Int64 => VInt 0
      | reflect.Uint | reflect.Uint8 | reflect.Uint16 | reflect.Uint32
      | reflect.Uint64 | reflect.Uintptr => VUint 0
      | reflect.Float32 | reflect.Float64 => VFloat (S754_zero false)
      | reflect.String => VString ""
      | _ => VOpaque
      end
  | TUID => VUint 0
  | TTime => VTime zeroTime
  | TSlice _ _ => VSlice [] 0
  | TArray _ n elem => VArray (replicate n (zero elem))
  | TMap _ _ _ => VMap None
  | TPtr _ => VPtr None
  | TStruct _ fields => VStruct ((fun f : string * bool * rtype => zero f.2) <$> fields)
  | TInterface _ _ => VInterface None
  end.

(** The width in bits of an integer kind. *)
Definition bitSize (k : reflect.Kind) : Z :=
  match k with
  | reflect.Int8 | reflect.Uint8 => 8
  | reflect.Int16 | reflect.Uint16 => 16
  | reflect.Int32 | reflect.Uint32 => 32
  | _ => 64
  end.

(** [val.SetInt(x)], [val.SetUint(x)], [val.SetFloat(x)]: the stored value is
    converted to the width of the destination (reflect truncates silently). *)
Definition SetInt (typ : rtype) (x : Z) : rvalue :=
  VInt (wrap_signed (bitSize (Kind typ)) x).

Definition SetUint (typ : rtype) (x : Z) : rvalue :=
  VUint (wrap_unsigned (bitSize (Kind typ)) x).

Definition SetFloat (typ : rtype) (x : spec_float) : rvalue :=
  match Kind typ with
  | reflect.Float32 => VFloat (float32 x)
  | _ => VFloat x
  end.

Definition stringType : rtype := TBasic "string" BString.
Definition uidType : rtype := TUID.
Definition timeType : rtype := TTime.

(** [typ == timeType] and [typ == uidType]. *)
Definition isTimeType (typ : rtype) : bool :=
  match typ with TTime => true | _ => false end.

Definition isUIDType (typ : rtype) : bool :=
  match typ with TUID => true | _ => false end.

(** [func isEmptyInterface(v reflect.Value) bool] *)
Definition isEmptyInterface (typ : rtype) : bool :=
  match typ with
  | TInterface _ numMethod => bool_decide (numMethod = 0%nat)
  | _ => false
  end.

(** [stringType.ConvertibleTo(key)]: a string converts to any type whose
    underlying type is string, to byte and rune slices, and to an interface
    type it implements (the empty interface only: string has no methods). *)
Definition ConvertibleTo_string (key : rtype) : bool :=
  match key with
  | TBasic _ BString => true
  | TSlice _ (TBasic _ BUint8) | TSlice _ (TBasic _ BInt32) => true
  | TInterface _ numMethod => bool_decide (numMethod = 0%nat)
  | _ => false
  end.

(** ** Errors and panics *)

(** The error values the engine builds or passes on.  [fmt.Errorf] results
    are kept structured: one constructor per format string. *)
Inductive error :=
| incompatibleDecodeTypeError (dest : rtype) (src : string)
    (* plist: type mismatch: tried to decode plist type `src' into value of type `dest' *)
| errByteArraySize (nbytes size : Z)
    (* plist: attempted to unmarshal %d bytes into a byte array of size %d *)
| errArraySize (nvalues size : Z)
    (* plist: attempted to unmarshal %d values into an array of size %d *)
| errUnknownType (goType : string)
    (* plist: unknown type %T *)
| errNonStringKey (key : rtype)
    (* plist: attempt to decode dictionary into map with non-string key type `%v' *)
| errElement (n : Z) (err : error)
    (* element %d: %w *)
| errField (name : string) (err : error)
    (* field %q: %w *)
| errFieldNotSettable (name : string)
    (* field %q not settable *)
| errMapKey (k : string) (err : error)
    (* map key %q: %w *)
| multierror_Error (Errors : list error)
    (* *multierror.Error *)
| errExternal (msg : string).
    (* an error built outside this file: hooks, getTypeInfo, time.Parse, strconv *)

(** [multierror.Append(err, e)] for an [e] that is not itself a
    [*multierror.Error] (the engine only appends [fmt.Errorf] results). *)
Definition multierror_Append (err : option error) (e : error) : option error :=
  match err with
  | None => Some (multierror_Error [e])
  | Some (multierror_Error errs) => Some (multierror_Error (errs ++ [e]))
  | Some other => Some (multierror_Error [other; e])
  end.

(** What a panic carries. *)
Inductive panicValue :=
| panicError (err : error)
| panicReflect (msg : string)
| panicRuntime (msg : string).

(** A Go call either returns or panics. *)
Inductive completion (A : Type) :=
| Returns (a : A)
| Panics (v : panicValue).

Arguments Returns {A} a.
Arguments Panics {A} v.

(** The result of a decode step: what the call did, and the contents of the
    destination afterwards (writes made before an error or a panic stay). *)
Definition outcome : Type := completion (option error) * rvalue.

Definition succeed (val : rvalue) : outcome := (Returns None, val).
Definition fail (err : error) (val : rvalue) : outcome := (Returns (Some err), val).
Definition panic (v : panicValue) (val : rvalue) : outcome := (Panics v, val).

(** ** External collaborators *)

(** Modelled from the spec: the Field Descriptor of section 3, "an ordered
    list of (document key name, accessor into the record instance) pairs".
    [getTypeInfo] and [fieldInfo] are declared outside unmarshal.go; the
    accessor is the position of the field in the record. *)
Record fieldInfo := { name : string; idx : nat }.

Record typeInfo := { fields : list fieldInfo }.

(** Everything unmarshal.go calls but does not define.
    - [plistUnmarshaler typ] is the custom decode hook of [typ], if it
      declares one ([implementsInterface(val, plistUnmarshalerType)]):
      applied to the node and the receiver, it gives what
      [unmarshalPlistInterface] does, callback into the engine included;
    - [textUnmarshaler typ] likewise for [encoding.TextUnmarshaler];
    - the [mustParse] helpers return the parsed value or panic: their Go
      signature has a single result and no error;
    - [time_Parse] is [time.Parse(textPlistTimeLayout, s)];
    - [getTypeInfo] is the struct-field metadata cache. *)
Record Externals := {
  plistUnmarshaler : rtype -> option (cfValue -> rvalue -> outcome);
  textUnmarshaler : rtype -> option (string -> rvalue -> outcome);
  mustParseInt : string -> Z -> Z -> completion Z;
  mustParseUint : string -> Z -> Z -> completion Z;
  mustParseFloat : string -> Z -> completion spec_float;
  mustParseBool : string -> completion bool;
  time_Parse : string -> Time + error;
  getTypeInfo : rtype -> typeInfo + error
}.

(** The decoder configuration. *)
Record Decoder := { lax : bool }.

(** ** The dynamic materializer *)

Definition byteValue (b : Byte.byte) : rvalue := VUint (Z.of_N (Byte.to_N b)).

(** [[]byte(pval)] as the contents of a byte slice. *)
Definition bytesValue (b : list Byte.byte) : rvalue :=
  VSlice (byteValue <$> b) (length b).

Definition anyType : rtype := TInterface "" 0.
Definition sliceOfAnyType : rtype := TSlice "" anyType.
Definition mapOfAnyType : rtype := TMap "" stringType anyType.
Definition bytesType : rtype := TSlice "" (TBasic "uint8" BUint8).

(** The two loops of the materializer, open in the recursive call:
    [arrayInterface] fills a [[]interface{}] of the length of the array,
    [dictionaryInterface] assigns [out[k]] for each pair in document order. *)
Definition arrayInterfaceWith (valueInterface : cfValue -> option (rtype * rvalue))
    (values : list cfValue) : rvalue :=
  VSlice ((fun subv => VInterface (valueInterface subv)) <$> values) (length values).

Definition dictionaryInterfaceWith (valueInterface : cfValue -> option (rtype * rvalue))
    (entries : list (string * cfValue)) : rvalue :=
  VMap (Some (foldl (fun out e => <[e.1 := VInterface (valueInterface e.2)]> out) ∅ entries)).

(** [func (p *Decoder) valueInterface(pval cfValue) interface{}].  The
    result is the contents of an [interface{}]: nil, or a dynamic type and a
    value of that type. *)
Fixpoint valueInterface (pval : cfValue) : option (rtype * rvalue) :=
  match pval with
  | cfString s => Some (stringType, VString s)
  | cfNumber signed value =>
      if signed then Some (TBasic "int64" BInt64, VInt (int64 value))
      else Some (TBasic "uint64" BUint64, VUint value)
  | cfReal wide value =>
      if wide then Some (TBasic "float64" BFloat64, VFloat value)
      else Some (TBasic "float32" BFloat32, VFloat (float32 value))
  | cfBoolean b => Some (TBasic "bool" BBool, VBool b)
  | cfArray values => Some (sliceOfAnyType, arrayInterfaceWith valueInterface values)
  | cfDictionary entries => Some (mapOfAnyType, dictionaryInterfaceWith valueInterface entries)
  | cfData b => Some (bytesType, bytesValue b)
  | cfDate t => Some (timeType, VTime t)
  | cfUID u => Some (uidType, VUint u)
  | cfNil | cfOther _ => None
  end.

(** [func (p *Decoder) arrayInterface(a *cfArray) []interface{}] *)
Definition arrayInterface : list cfValue -> rvalue :=
  arrayInterfaceWith valueInterface.

(** [func (p *Decoder) dictionaryInterface(dict *cfDictionary) map[string]interface{}] *)
Definition dictionaryInterface : list (string * cfValue) -> rvalue :=
  dictionaryInterfaceWith valueInterface.

(** ** Lax coercion *)

Section Engine.

Context (ext : Externals) (p : Decoder).

(** [func (p *Decoder) unmarshalTime(pval cfDate, val reflect.Value)] *)
Definition unmarshalTime (pval : Time) (val : rvalue) : rvalue := VTime pval.

(** [func (p *Decoder) unmarshalLaxString(s string, val reflect.Value) error] *)
Definition unmarshalLaxString (s : string) (typ : rtype) (val : rvalue) : outcome :=
  match Kind typ with
  | reflect.Int | reflect.Int8 | reflect.Int16 | reflect.Int32 | reflect.Int64 =>
      match mustParseInt ext s 10 64 with
      | Panics v => panic v val
      | Returns i => succeed (SetInt typ i)
      end
  | reflect.Uint | reflect.Uint8 | reflect.Uint16 | reflect.Uint32 | reflect.Uint64
  | reflect.Uintptr =>
      match mustParseUint ext s 10 64 with
      | Panics v => panic v val
      | Returns i => succeed (SetUint typ i)
      end
  | reflect.Float32 | reflect.Float64 =>
      match mustParseFloat ext s 64 with
      | Panics v => panic v val
      | Returns f => succeed (SetFloat typ f)
      end
  | reflect.Bool =>
      match mustParseBool ext s with
      | Panics v => panic v val
      | Returns b => succeed (VBool b)
      end
  | reflect.Struct =>
      if isTimeType typ then
        match time_Parse ext s with
        | inr err => fail err val
        | inl t => succeed (VTime (Time_In t UTC))
        end
      else fail (incompatibleDecodeTypeError typ "string") val
  | _ => fail (incompatibleDecodeTypeError typ "string") val
  end.

(** ** Sequence decode *)

(** [func growSliceCap(cap int) int] *)
Definition growSliceCap (cap : Z) : Z :=
  if cap =? 0 then 4
  else if cap <? 1024 then int_mul cap 2
  else int_add cap (int_div cap 4).

(** [for ncap < cnt { ncap = growSliceCap(ncap) }].  [fuel] bounds the number
    of rounds; [growLoop_fuel] shows that [cnt] rounds are always enough. *)
Fixpoint growLoop (fuel : nat) (ncap cnt : Z) : Z :=
  match fuel with
  | O => ncap
  | S fuel => if ncap <? cnt then growLoop fuel (growSliceCap ncap) cnt else ncap
  end.

(** [for _, sval := range a.values { ... n++ }]: [slots] are the elements
    of the destination, [n] the index of the next one. *)
Fixpoint arrayLoop (unmarshal : cfValue -> rtype -> rvalue -> outcome) (elem : rtype)
    (values : list cfValue) (n : nat) (resultErr : option error) (slots : list rvalue)
    {struct values} : completion (option error) * list rvalue :=
  match values with
  | [] => (Returns resultErr, slots)
  | sval :: rest =>
      match slots !! n with
      | None => (Panics (panicReflect "reflect: slice index out of range"), slots)
      | Some slot =>
          match unmarshal sval elem slot with
          | (Panics v, slot') => (Panics v, <[n := slot']> slots)
          | (Returns (Some err), slot') =>
              arrayLoop unmarshal elem rest (S n)
                (multierror_Append resultErr (errElement (Z.of_nat n) err))
                (<[n := slot']> slots)
          | (Returns None, slot') =>
              arrayLoop unmarshal elem rest (S n) resultErr (<[n := slot']> slots)
          end
      end
  end.

(** The "Grow slice" block of [unmarshalArray]: when [cnt] exceeds the
    capacity, a new backing array of the grown capacity is made
    ([reflect.MakeSlice], zero-filled) and the [len] elements are copied
    into it; otherwise the backing array stays. *)
Definition growSlice (elem : rtype) (backing : list rvalue) (len : nat) (cnt : Z)
    : list rvalue :=
  if Z.of_nat (length backing) <? cnt then
    let ncap := growLoop (Z.to_nat cnt) (Z.of_nat (length backing)) cnt in
    take len backing ++ replicate (Z.to_nat ncap - len)%nat (zero elem)
  else backing.

(** [func (p *Decoder) unmarshalArray(a *cfArray, val reflect.Value) error],
    open in the recursive call. *)
Definition unmarshalArrayWith (unmarshal : cfValue -> rtype -> rvalue -> outcome)
    (values : list cfValue) (typ : rtype) (val : rvalue) : outcome :=
  match typ with
  | TSlice _ elem =>
      match val with
      | VSlice backing len =>
          let cnt := int_add (Z.of_nat (length values)) (Z.of_nat len) in
          let backing := growSlice elem backing len cnt in
          let n := len in
          let '(r, backing) := arrayLoop unmarshal elem values n None backing in
          (r, VSlice backing (Z.to_nat cnt))
      | _ => panic (panicReflect "reflect: call of reflect.Value.Len on non-slice Value") val
      end
  | TArray _ cap elem =>
      if Z.of_nat cap <? Z.of_nat (length values) then
        fail (errArraySize (Z.of_nat (length values)) (Z.of_nat cap)) val
      else
        match val with
        | VArray elems =>
            let '(r, elems) := arrayLoop unmarshal elem values 0 None elems in
            (r, VArray elems)
        | _ => panic (panicReflect "reflect: call of reflect.Value.Index on non-array Value") val
        end
  | _ => fail (incompatibleDecodeTypeError typ "array") val
  end.

(** ** Mapping decode *)

(** [finfo.valueForWriting(val)]: the type of the field, whether it can be
    set, and its contents. *)
Definition valueForWriting (finfo : fieldInfo) (typ : rtype) (val : rvalue)
    : option (rtype * bool * rvalue) :=
  match typ, val with
  | TStruct _ ftypes, VStruct fvals =>
      match ftypes !! idx finfo, fvals !! idx finfo with
      | Some (_, exported, ftyp), Some fval => Some (ftyp, exported, fval)
      | _, _ => None
      end
  | _, _ => None
  end.

(** Writing back through the handle [valueForWriting] returned. *)
Definition setField (finfo : fieldInfo) (val : rvalue) (fval : rvalue) : rvalue :=
  match val with
  | VStruct fvals => VStruct (<[idx finfo := fval]> fvals)
  | _ => val
  end.

(** [for _, finfo := range tinfo.fields { ... }].  [entries] is the lookup
    from key to node built from the dictionary; each node [ent] is kept as
    the decode step [unmarshal ent] it is used for. *)
Fixpoint structLoop (entries : gmap string (rtype -> rvalue -> outcome))
    (fields : list fieldInfo) (typ : rtype) (val : rvalue) (resultErr : option error)
    : outcome :=
  match fields with
  | [] => (Returns resultErr, val)
  | finfo :: rest =>
      match entries !! name finfo with
      | Some ent =>
          match valueForWriting finfo typ val with
          | None => panic (panicReflect "reflect: Field index out of range") val
          | Some (ftyp, canSet, fieldVal) =>
              if canSet then
                match ent ftyp fieldVal with
                | (Panics v, fieldVal') => (Panics v, setField finfo val fieldVal')
                | (Returns (Some err), fieldVal') =>
                    structLoop entries rest typ (setField finfo val fieldVal')
                      (multierror_Append resultErr (errField (name finfo) err))
                | (Returns None, fieldVal') =>
                    structLoop entries rest typ (setField finfo val fieldVal') resultErr
                end
              else
                structLoop entries rest typ val
                  (multierror_Append resultErr (errFieldNotSettable (name finfo)))
          end
      | None => structLoop entries rest typ val resultErr
      end
  end.

(** [for i, k := range dict.keys { sval := dict.values[i]; ... }] of the map
    branch: [m] is the destination map. *)
Fixpoint mapLoop (unmarshal : cfValue -> rtype -> rvalue -> outcome) (elem : rtype)
    (dict : list (string * cfValue)) (resultErr : option error) (m : gmap string rvalue)
    {struct dict} : completion (option error) * gmap string rvalue :=
  match dict with
  | [] => (Returns resultErr, m)
  | (k, sval) :: rest =>
      let mapElem := zero elem in
      match unmarshal sval elem mapElem with
      | (Panics v, _) => (Panics v, m)
      | (Returns (Some err), _) =>
          mapLoop unmarshal elem rest (multierror_Append resultErr (errMapKey k err)) m
      | (Returns None, mapElem) =>
          mapLoop unmarshal elem rest resultErr (<[k := mapElem]> m)
      end
  end.

(** [func (p *Decoder) unmarshalDictionary(dict *cfDictionary, val reflect.Value) error],
    open in the recursive call. *)
Definition unmarshalDictionaryWith (unmarshal : cfValue -> rtype -> rvalue -> outcome)
    (dict : list (string * cfValue)) (typ : rtype) (val : rvalue) : outcome :=
  match Kind typ with
  | reflect.Struct =>
      match getTypeInfo ext typ with
      | inr err => fail err val
      | inl tinfo =>
          let entries := foldl (fun entries e => <[e.1 := unmarshal e.2]> entries) ∅ dict in
          structLoop entries (fields tinfo) typ val None
      end
  | reflect.Map =>
      match typ, val with
      | TMap _ key elem, VMap m =>
          let m := match m with None => ∅ | Some m => m end in
          if negb (ConvertibleTo_string key) then fail (errNonStringKey key) (VMap (Some m))
          else
            let '(r, m) := mapLoop unmarshal elem dict None m in
            (r, VMap (Some m))
      | _, _ => panic (panicReflect "reflect: call of reflect.Value.IsNil on non-map Value") val
      end
  | _ => fail (incompatibleDecodeTypeError typ "dictionary") val
  end.

(** ** The dispatch core *)

(** [for val.Kind() == reflect.Ptr { ... val = val.Elem() }], followed by the
    rest of the decode, [k], on the destination the pointers lead to.  A nil
    pointer is set to a fresh zero target first. *)
Fixpoint resolve (k : rtype -> rvalue -> outcome) (typ : rtype) (val : rvalue)
    {struct typ} : outcome :=
  match typ with
  | TPtr elem =>
      let target := match val with VPtr (Some target) => target | _ => zero elem end in
      let '(r, target) := resolve k elem target in
      (r, VPtr (Some target))
  | _ => k typ val
  end.

(** The body of [unmarshal] after the nil check and the pointer loop; it is
    only entered with a node that is not nil. *)
Definition dispatch (unmarshal : cfValue -> rtype -> rvalue -> outcome)
    (pval : cfValue) (typ : rtype) (val : rvalue) : outcome :=
  if isEmptyInterface typ then
    match valueInterface pval with
    | Some v => succeed (VInterface (Some v))
    | None => panic (panicReflect "reflect: call of reflect.Value.Set on zero Value") val
    end
  else
  let incompatibleTypeError := incompatibleDecodeTypeError typ (typeName pval) in
  match plistUnmarshaler ext typ with
  | Some receiver => receiver pval val
  | None =>
  match pval with
  | cfDate date =>
      if isTimeType typ then succeed (unmarshalTime date val)
      else fail incompatibleTypeError val
  | _ =>
  match (if isTimeType typ then None else textUnmarshaler ext typ) with
  | Some receiver =>
      match pval with
      | cfString str => receiver str val
      | _ => fail incompatibleTypeError val
      end
  | None =>
  match pval with
  | cfString s =>
      match Kind typ with
      | reflect.String => succeed (VString s)
      | _ => if lax p then unmarshalLaxString s typ val else fail incompatibleTypeError val
      end
  | cfNumber _ value =>
      match Kind typ with
      | reflect.Int | reflect.Int8 | reflect.Int16 | reflect.Int32 | reflect.Int64 =>
          succeed (SetInt typ (int64 value))
      | reflect.Uint | reflect.Uint8 | reflect.Uint16 | reflect.Uint32 | reflect.Uint64
      | reflect.Uintptr =>
          succeed (SetUint typ value)
      | _ => fail incompatibleTypeError val
      end
  | cfReal _ value =>
      match Kind typ with
      | reflect.Float32 | reflect.Float64 => succeed (SetFloat typ value)
      | _ => fail incompatibleTypeError val
      end
  | cfBoolean b =>
      match Kind typ with
      | reflect.Bool => succeed (VBool b)
      | _ => fail incompatibleTypeError val
      end
  | cfData b =>
      match typ with
      | TSlice _ elem =>
          match Kind elem with
          | reflect.Uint8 => succeed (bytesValue b)
          | _ => fail incompatibleTypeError val
          end
      | TArray _ len elem =>
          match Kind elem with
          | reflect.Uint8 =>
              if Z.of_nat len <? Z.of_nat (length b) then
                fail (errByteArraySize (Z.of_nat (length b)) (Z.of_nat len)) val
              else
                match val with
                | VArray elems => succeed (VArray ((byteValue <$> b) ++ drop (length b) elems))
                | _ => panic (panicReflect "reflect.Copy: destination is not an array") val
                end
          | _ => fail incompatibleTypeError val
          end
      | _ => fail incompatibleTypeError val
      end
  | cfUID u =>
      if isUIDType typ then succeed (SetUint typ (uint64 u))
      else
        match Kind typ with
        | reflect.Int | reflect.Int8 | reflect.Int16 | reflect.Int32 | reflect.Int64 =>
            succeed (SetInt typ (int64 u))
        | reflect.Uint | reflect.Uint8 | reflect.Uint16 | reflect.Uint32 | reflect.Uint64
        | reflect.Uintptr =>
            succeed (SetUint typ (uint64 u))
        | _ => fail incompatibleTypeError val
        end
  | cfArray values => unmarshalArrayWith unmarshal values typ val
  | cfDictionary dict => unmarshalDictionaryWith unmarshal dict typ val
  | cfOther goType => fail (errUnknownType goType) val
  | cfDate _ | cfNil => succeed val
  end
  end
  end
  end.

(** [func (p *Decoder) unmarshal(pval cfValue, val reflect.Value) error] *)
Fixpoint unmarshal (pval : cfValue) (typ : rtype) (val : rvalue) {struct pval} : outcome :=
  match pval with
  | cfNil => succeed val
  | _ => resolve (dispatch unmarshal pval) typ val
  end.

(** [func (p *Decoder) unmarshalArray(a *cfArray, val reflect.Value) error] *)
Definition unmarshalArray : list cfValue -> rtype -> rvalue -> outcome :=
  unmarshalArrayWith unmarshal.

(** [func (p *Decoder) unmarshalDictionary(dict *cfDictionary, val reflect.Value) error] *)
Definition unmarshalDictionary : list (string * cfValue) -> rtype -> rvalue -> outcome :=
  unmarshalDictionaryWith unmarshal.

End Engine.

Arguments unmarshal ext p !pval typ val /.

(** ** An environment for examples *)

Module Sample.

Fixpoint parseDigits (s : string) (acc : Z) : option Z :=
  match s with
  | EmptyString => Some acc
  | String c rest =>
      let d := Z.of_nat (Ascii.nat_of_ascii c) - 48 in
      if (0 <=? d) && (d <=? 9) then parseDigits rest (10 * acc + d) else None
  end.

(** Base-10 text of an integer, with an optional sign, as [strconv] reads it. *)
Definition parseDecimal (s : string) : option Z :=
  match s with
  | EmptyString => None
  | String "-"%char (String _ _ as rest) => Z.opp <$> parseDigits rest 0
  | String "+"%char (String _ _ as rest) => parseDigits rest 0
  | String "-"%char _ | String "+"%char _ => None
  | _ => parseDigits s 0
  end.

Definition syntaxError (fn s : string) : panicValue :=
  panicError (errExternal ("strconv." +:+ fn +:+ ": parsing " +:+ s +:+ ": invalid syntax")).

Definition rangeError (fn s : string) : panicValue :=
  panicError (errExternal ("strconv." +:+ fn +:+ ": parsing " +:+ s +:+ ": value out of range")).

Definition parseInt (s : string) (base bits : Z) : completion Z :=
  match parseDecimal s with
  | None => Panics (syntaxError "ParseInt" s)
  | Some i =>
      if (- 2 ^ (bits - 1) <=? i) && (i <? 2 ^ (bits - 1)) then Returns i
      else Panics (rangeError "ParseInt" s)
  end.

Definition parseUint (s : string) (base bits : Z) : completion Z :=
  match parseDigits s 0 with
  | None => Panics (syntaxError "ParseUint" s)
  | Some i =>
      if negb (s =? "")%string && (i <? 2 ^ bits) then Returns i
      else Panics (rangeError "ParseUint" s)
  end.

Definition parseFloat (s : string) (bits : Z) : completion spec_float :=
  match parseDecimal s with
  | None => Panics (syntaxError "ParseFloat" s)
  | Some i => Returns (binary_normalize 53 1024 i 0 false)
  end.

Definition parseBool (s : string) : completion bool :=
  if bool_decide (s ∈ ["1"; "t"; "T"; "TRUE"; "true"; "True"]) then Returns true
  else if bool_decide (s ∈ ["0"; "f"; "F"; "FALSE"; "false"; "False"]) then Returns false
  else Panics (syntaxError "ParseBool" s).

(** Field metadata of a struct type: one descriptor per field, named after
    the field, in declaration order. *)
Definition describe (typ : rtype) : typeInfo + error :=
  match typ with
  | TStruct _ ftypes =>
      inl {| fields := imap (fun i (f : string * bool * rtype) => {| name := f.1.1; idx := i |}) ftypes |}
  | _ => inr (errExternal "plist: unsupported type")
  end.

(** No destination type declares a hook; the must-helpers panic with the
    [strconv] error on malformed text. *)
Definition externals : Externals := {|
  plistUnmarshaler := fun _ => None;
  textUnmarshaler := fun _ => None;
  mustParseInt := parseInt;
  mustParseUint := parseUint;
  mustParseFloat := parseFloat;
  mustParseBool := parseBool;
  time_Parse := fun s => inr (errExternal "parsing time: cannot parse");
  getTypeInfo := describe
|}.

Definition strict : Decoder := {| lax := false |}.
Definition relaxed : Decoder := {| lax := true |}.

Definition boolT : rtype := TBasic "bool" BBool.
Definition intT : rtype := TBasic "int" BInt.
Definition int8T : rtype := TBasic "int8" BInt8.
Definition uint8T : rtype := TBasic "uint8" BUint8.
Definition float32T : rtype := TBasic "float32" BFloat32.

End Sample.

(** A second environment, with hooks: the defined type [Level] decodes
    itself from text (it stores the length of the text), and the defined
    type [Raw] has a custom decode hook that counts the children of the node
    it is given. *)
Module SampleHooks.

Definition levelT : rtype := TBasic "Level" BInt.
Definition rawT : rtype := TBasic "Raw" BInt.

Definition textHook (typ : rtype) : option (string → rvalue → outcome) :=
  match typ with
  | TBasic nm BInt =>
      if (nm =? "Level")%string
      then Some (fun s _ => succeed (VInt (Z.of_nat (String.length s))))
      else None
  | _ => None
  end.

Definition plistHook (typ : rtype) : option (cfValue → rvalue → outcome) :=
  match typ with
  | TBasic nm BInt =>
      if (nm =? "Raw")%string
      then Some (fun pval _ =>
                   match pval with
                   | cfArray values => succeed (VInt (Z.of_nat (length values)))
                   | cfDictionary dict => succeed (VInt (Z.of_nat (length dict)))
                   | _ => succeed (VInt 0)
                   end)
      else None
  | _ => None
  end.

Definition externals : Externals := {|
  plistUnmarshaler := plistHook;
  textUnmarshaler := textHook;
  mustParseInt := Sample.parseInt;
  mustParseUint := Sample.parseUint;
  mustParseFloat := Sample.parseFloat;
  mustParseBool := Sample.parseBool;
  time_Parse := fun s => inr (errExternal "parsing time: cannot parse");
  getTypeInfo := Sample.describe
|}.

End SampleHooks.

(** ** Notions used to state the properties *)

(** The scalar node kinds. *)
Definition scalar (pval : cfValue) : bool :=
  match pval with
  | cfString _ | cfNumber _ _ | cfReal _ _ | cfBoolean _ | cfData _ | cfUID _ => true
  | _ => false
  end.

Definition isIntKind (k : reflect.Kind) : bool :=
  match k with
  | reflect.Int | reflect.Int8 | reflect.Int16 | reflect.Int32 | reflect.Int64 => true
  | _ => false
  end.

Definition isUintKind (k : reflect.Kind) : bool :=
  match k with
  | reflect.Uint | reflect.Uint8 | reflect.Uint16 | reflect.Uint32 | reflect.Uint64
  | reflect.Uintptr => true
  | _ => false
  end.

Definition isFloatKind (k : reflect.Kind) : bool :=
  match k with
  | reflect.Float32 | reflect.Float64 => true
  | _ => false
  end.

Definition isBoolKind (k : reflect.Kind) : bool :=
  match k with
  | reflect.Bool => true
  | _ => false
  end.

Definition isByteSequence (typ : rtype) : bool :=
  match typ with
  | TSlice _ elem | TArray _ _ elem =>
      match Kind elem with reflect.Uint8 => true | _ => false end
  | _ => false
  end.



(** The destination type declares no hook the engine would call. *)
Definition noHook (ext : Externals) (typ : rtype) : Prop :=
  plistUnmarshaler ext typ = None ∧
  (isTimeType typ = false → textUnmarshaler ext typ = None).


(** The value of the last pair with key [k] in a dictionary. *)
Fixpoint lastValue (k : string) (dict : list (string * cfValue)) : option cfValue :=
  match dict with
  | [] => None
  | (k', v) :: rest =>
      match lastValue k rest with
      | Some v' => Some v'
      | None => if decide (k' = k) then Some v else None
      end
  end.

(** A node of one of the nine kinds of the document model. *)
Definition known (pval : cfValue) : bool :=
  match pval with
  | cfNil | cfOther _ => false
  | _ => true
  end.

(** The errors sequence decode records for [values] decoded by [f] into the
    slots of [slots] from index [n] on: one per element whose decode returns
    an error, tagged with the index of its slot, in order. *)
Fixpoint elementErrors (f : cfValue → rtype → rvalue → outcome) (elem : rtype)
    (values : list cfValue) (n : nat) (slots : list rvalue) : list error :=
  match values with
  | [] => []
  | sval :: rest =>
      match slots !! n with
      | Some slot =>
          match (f sval elem slot).1 with
          | Returns (Some err) => [errElement (Z.of_nat n) err]
          | _ => []
          end
      | None => []
      end ++ elementErrors f elem rest (S n) slots
  end.

(** The aggregated-error collection holding [errs]; nil when there are none. *)
Definition aggregate (errs : list error) : option error :=
  match errs with
  | [] => None
  | _ => Some (multierror_Error errs)
  end.

(** No decode of an element of [values] into its slot panics. *)
Definition noPanic (f : cfValue → rtype → rvalue → outcome) (elem : rtype)
    (values : list cfValue) (n : nat) (slots : list rvalue) : Prop :=
  ∀ i sval slot, values !! i = Some sval → slots !! (n + i)%nat = Some slot →
    ∃ r v, f sval elem slot = (Returns r, v).

(** What sequence decode works on, for a destination that accepts the
    array: the element type, the index of the slot of the first source
    element, and the slots when the element loop starts. *)
Definition elementSlots (values : list cfValue) (typ : rtype) (val : rvalue)
    : option (rtype * nat * list rvalue) :=
  match typ, val with
  | TSlice _ elem, VSlice backing len =>
      Some (elem, len,
            growSlice elem backing len (int_add (Z.of_nat (length values)) (Z.of_nat len)))
  | TArray _ cap elem, VArray elems =>
      if Z.of_nat cap <? Z.of_nat (length values) then None else Some (elem, 0%nat, elems)
  | _, _ => None
  end.

(** The elements of a slice (its backing array) or of an array. *)
Definition elementsOf (val : rvalue) : list rvalue :=
  match val with
  | VSlice backing _ => backing
  | VArray elems => elems
  | _ => []
  end.

(** The length of a slice destination; 0 for any other destination. *)
Definition sliceLen (val : rvalue) : nat :=
  match val with
  | VSlice _ len => len
  | _ => 0
  end.

(** The field at position [j] of a record. *)
Definition fieldAt (j : nat) (val : rvalue) : option rvalue :=
  match val with
  | VStruct fvals => fvals !! j
  | _ => None
  end.

(** The decoded value of the last pair with key [k] whose value decodes,
    into a fresh element of type [elem], without error. *)
Fixpoint lastDecoded (f : cfValue → rtype → rvalue → outcome) (elem : rtype)
    (k : string) (dict : list (string * cfValue)) : option rvalue :=
  match dict with
  | [] => None
  | (k', sval) :: rest =>
      match lastDecoded f elem k rest with
      | Some x => Some x
      | None =>
          if decide (k' = k) then
            match f sval elem (zero elem) with
            | (Returns None, x) => Some x
            | _ => None
            end
          else None
      end
  end.

(** The errors mapping decode into a map records for [dict] decoded by [f]:
    one per pair whose value fails to decode, tagged with its key, in
    document order. *)
Fixpoint mapErrors (f : cfValue → rtype → rvalue → outcome) (elem : rtype)
    (dict : list (string * cfValue)) : list error :=
  match dict with
  | [] => []
  | (k, sval) :: rest =>
      match (f sval elem (zero elem)).1 with
      | Returns (Some err) => [errMapKey k err]
      | _ => []
      end ++ mapErrors f elem rest
  end.

(** No decode of a value of [dict] into a fresh element panics. *)
Definition noMapPanic (f : cfValue → rtype → rvalue → outcome) (elem : rtype)
    (dict : list (string * cfValue)) : Prop :=
  ∀ k sval, (k, sval) ∈ dict → ∃ r x, f sval elem (zero elem) = (Returns r, x).

(** The errors mapping decode into a record records, in descriptor order:
    for each descriptor whose name is a key of [dict], that the field cannot
    be set, or the error of decoding the value into the field. *)
Fixpoint fieldErrors (f : cfValue → rtype → rvalue → outcome)
    (dict : list (string * cfValue)) (fields : list fieldInfo)
    (typ : rtype) (val : rvalue) : list error :=
  match fields with
  | [] => []
  | finfo :: rest =>
      match lastValue (name finfo) dict with
      | Some ent =>
          match valueForWriting finfo typ val with
          | Some (ftyp, true, fieldVal) =>
              match (f ent ftyp fieldVal).1 with
              | Returns (Some err) => [errField (name finfo) err]
              | _ => []
              end
          | Some (_, false, _) => [errFieldNotSettable (name finfo)]
          | None => []
          end
      | None => []
      end ++ fieldErrors f dict rest typ val
  end.

(** Every descriptor named by a key of [dict] leads to a field of the
    record, and no decode into a field that can be set panics. *)
Definition noFieldPanic (f : cfValue → rtype → rvalue → outcome)
    (dict : list (string * cfValue)) (fields : list fieldInfo)
    (typ : rtype) (val : rvalue) : Prop :=
  ∀ finfo ent, finfo ∈ fields → lastValue (name finfo) dict = Some ent →
    ∃ ftyp canSet fieldVal,
      valueForWriting finfo typ val = Some (ftyp, canSet, fieldVal) ∧
      (canSet = true → ∃ r x, f ent ftyp fieldVal = (Returns r, x)).

(** A document subtree without any String node. *)
Fixpoint stringFree (pval : cfValue) : bool :=
  match pval with
  | cfString _ => false
  | cfArray values => forallb stringFree values
  | cfDictionary dict => forallb (fun e => stringFree e.2) dict
  | _ => true
  end.




(** The kinds of values the engine never looks into. *)
Definition isOpaqueKind (k : reflect.Kind) : bool :=
  match k with
  | reflect.Complex64 | reflect.Complex128 | reflect.Chan | reflect.Func
  | reflect.UnsafePointer => true
  | _ => false
  end.

(** The fields of a record have the types the struct type lists, in order. *)
Fixpoint fieldsHaveTypes (hasType : rtype → rvalue → Prop)
    (ftypes : list (string * bool * rtype)) (fvals : list rvalue) : Prop :=
  match ftypes, fvals with
  | [], [] => True
  | f :: ftypes, fval :: fvals => hasType f.2 fval ∧ fieldsHaveTypes hasType ftypes fvals
  | _, _ => False
  end.

(** Go's typing of the contents of a destination: the value has the shape of
    the type all the way down (to the elements in the spare capacity of a
    slice too), and an integer lies in the range of its kind.  The dynamic
    content of an interface is not constrained. *)
Fixpoint hasType (typ : rtype) (val : rvalue) {struct typ} : Prop :=
  match typ with
  | TBasic _ k =>
      match val with
      | VBool _ => isBoolKind (basicKind_Kind k) = true
      | VInt i =>
          isIntKind (basicKind_Kind k) = true ∧
          - 2 ^ (bitSize (basicKind_Kind k) - 1) ≤ i < 2 ^ (bitSize (basicKind_Kind k) - 1)
      | VUint u =>
          isUintKind (basicKind_Kind k) = true ∧ 0 ≤ u < 2 ^ bitSize (basicKind_Kind k)
      | VFloat _ => isFloatKind (basicKind_Kind k) = true
      | VString _ => basicKind_Kind k = reflect.String
      | VOpaque => isOpaqueKind (basicKind_Kind k) = true
      | _ => False
      end
  | TUID => match val with VUint u => 0 ≤ u < 2 ^ 64 | _ => False end
  | TTime => match val with VTime _ => True | _ => False end
  | TSlice _ elem =>
      match val with VSlice backing _ => Forall (hasType elem) backing | _ => False end
  | TArray _ len elem =>
      match val with
      | VArray elems => length elems = len ∧ Forall (hasType elem) elems
      | _ => False
      end
  | TMap _ _ elem =>
      match val with
      | VMap m => ∀ m', m = Some m' → map_Forall (fun _ => hasType elem) m'
      | _ => False
      end
  | TPtr elem =>
      match val with
      | VPtr target => ∀ x, target = Some x → hasType elem x
      | _ => False
      end
  | TStruct _ ftypes =>
      match val with VStruct fvals => fieldsHaveTypes hasType ftypes fvals | _ => False end
  | TInterface _ _ => match val with VInterface _ => True | _ => False end
  end.

(** The hooks leave their receiver well typed. *)
Definition hooksPreserveTypes (ext : Externals) : Prop :=
  (∀ typ receiver pval val, plistUnmarshaler ext typ = Some receiver →
     hasType typ val → hasType typ (receiver pval val).2) ∧
  (∀ typ receiver s val, textUnmarshaler ext typ = Some receiver →
     hasType typ val → hasType typ (receiver s val).2).

(** What a container decode that got past its fatal checks can do: panic,
    return nil, or return an aggregated-error collection that is not
    empty. *)
Definition aggregated (r : completion (option error)) : Prop :=
  (∃ v, r = Panics v) ∨ r = Returns None ∨
  ∃ e errs, r = Returns (Some (multierror_Error (e :: errs))).

(** Nothing recorded yet, or a collection that is not empty. *)
Definition collecting (resultErr : option error) : Prop :=
  resultErr = None ∨ ∃ e errs, resultErr = Some (multierror_Error (e :: errs)).

(** * Properties *)

Create HintDb plist discriminated.


(** ** Unfolding the engine *)

Section Unfolding.

Context (ext : Externals) (p : Decoder).

Lemma unmarshal_unfold pval typ val :
  unmarshal ext p pval typ val =
  match pval with
  | cfNil => succeed val
  | _ => resolve (dispatch ext p (unmarshal ext p) pval) typ val
  end.
Proof. destruct pval; reflexivity. Qed.

Lemma resolve_direct k typ val :
  Kind typ ≠ reflect.Ptr → resolve k typ val = k typ val.
Proof. destruct typ; simpl; congruence. Qed.

Lemma unmarshal_direct pval typ val :
  pval ≠ cfNil → Kind typ ≠ reflect.Ptr →
  unmarshal ext p pval typ val = dispatch ext p (unmarshal ext p) pval typ val.
Proof.
  intros Hnil Hptr. rewrite unmarshal_unfold.
  destruct pval; try congruence; apply resolve_direct; assumption.
Qed.

Lemma dispatch_array values typ val :
  isEmptyInterface typ = false → noHook ext typ →
  dispatch ext p (unmarshal ext p) (cfArray values) typ val
  = unmarshalArray ext p values typ val.
Proof.
  intros Hany [Hplist Htext]. unfold dispatch. rewrite Hany, Hplist.
  destruct (isTimeType typ) eqn:Htime; [reflexivity|].
  rewrite (Htext eq_refl). reflexivity.
Qed.

Lemma dispatch_dictionary dict typ val :
  isEmptyInterface typ = false → noHook ext typ →
  dispatch ext p (unmarshal ext p) (cfDictionary dict) typ val
  = unmarshalDictionary ext p dict typ val.
Proof.
  intros Hany [Hplist Htext]. unfold dispatch. rewrite Hany, Hplist.
  destruct (isTimeType typ) eqn:Htime; [reflexivity|].
  rewrite (Htext eq_refl). reflexivity.
Qed.

End Unfolding.

(** ** The dynamic materializer *)

Lemma foldl_insert_lookup {B} (f : cfValue → B) dict (out : gmap string B) k :
  foldl (fun out e => <[e.1 := f e.2]> out) out dict !! k
  = match lastValue k dict with Some v => Some (f v) | None => out !! k end.
Proof.
  revert out. induction dict as [|[k' v] rest IH]; intros out; simpl; [reflexivity|].
  rewrite IH. destruct (lastValue k rest); [reflexivity|].
  destruct (decide (k' = k)) as [->|Hne].
  - apply lookup_insert_eq.
  - apply lookup_insert_ne. assumption.
Qed.

(** The lookup the record branch builds maps a key to the decode step of the
    value of its last pair. *)
Lemma entries_lookup ext p dict k :
  foldl (fun entries e => <[e.1 := unmarshal ext p e.2]> entries)
    (∅ : gmap string (rtype → rvalue → outcome)) dict !! k
  = unmarshal ext p <$> lastValue k dict.
Proof.
  rewrite (foldl_insert_lookup (unmarshal ext p)), lookup_empty.
  destruct (lastValue k dict); reflexivity.
Qed.


(** ** Scalar dispatch *)

Section ScalarDispatch.

Context (ext : Externals) (p : Decoder).

Lemma dispatch_scalar pval typ val :
  scalar pval = true → isEmptyInterface typ = false → noHook ext typ →
  dispatch ext p (unmarshal ext p) pval typ val =
  let incompatibleTypeError := incompatibleDecodeTypeError typ (typeName pval) in
  match pval with
  | cfString s =>
      match Kind typ with
      | reflect.String => succeed (VString s)
      | _ => if lax p then unmarshalLaxString ext s typ val else fail incompatibleTypeError val
      end
  | cfNumber _ value =>
      if isIntKind (Kind typ) then succeed (SetInt typ (int64 value))
      else if isUintKind (Kind typ) then succeed (SetUint typ value)
      else fail incompatibleTypeError val
  | cfReal _ value =>
      if isFloatKind (Kind typ) then succeed (SetFloat typ value)
      else fail incompatibleTypeError val
  | cfBoolean b =>
      match Kind typ with
      | reflect.Bool => succeed (VBool b)
      | _ => fail incompatibleTypeError val
      end
  | cfData b =>
      if isByteSequence typ then
        match typ, val with
        | TArray _ len _, VArray elems =>
            if bool_decide (length b ≤ len)%nat
            then succeed (VArray ((byteValue <$> b) ++ drop (length b) elems))
            else fail (errByteArraySize (Z.of_nat (length b)) (Z.of_nat len)) val
        | TArray _ len _, _ =>
            if bool_decide (length b ≤ len)%nat
            then panic (panicReflect "reflect.Copy: destination is not an array") val
            else fail (errByteArraySize (Z.of_nat (length b)) (Z.of_nat len)) val
        | _, _ => succeed (bytesValue b)
        end
      else fail incompatibleTypeError val
  | cfUID u =>
      if isUIDType typ then succeed (SetUint typ (uint64 u))
      else if isIntKind (Kind typ) then succeed (SetInt typ (int64 u))
      else if isUintKind (Kind typ) then succeed (SetUint typ (uint64 u))
      else fail incompatibleTypeError val
  | _ => succeed val
  end.
Proof.
  intros Hscalar Hany [Hplist Htext]. unfold dispatch. rewrite Hany, Hplist.
  assert ((if isTimeType typ then None else textUnmarshaler ext typ) = None) as ->.
  { destruct (isTimeType typ); [reflexivity|]. apply Htext. reflexivity. }
  destruct pval; try discriminate; cbv zeta.
  - reflexivity.
  - destruct (Kind typ); reflexivity.
  - destruct (Kind typ); reflexivity.
  - reflexivity.
  - destruct typ as [? k| | |? elem|? len elem| | | |]; try reflexivity.
    + simpl. destruct (Kind elem); reflexivity.
    + simpl. destruct (Kind elem); try reflexivity.
      destruct (Z.ltb_spec (Z.of_nat len) (Z.of_nat (length b))).
      * rewrite bool_decide_eq_false_2 by lia. destruct val; reflexivity.
      * rewrite bool_decide_eq_true_2 by lia. destruct val; reflexivity.
  - destruct (isUIDType typ); [reflexivity|]. destruct (Kind typ); reflexivity.
Qed.

End ScalarDispatch.

Lemma scalar_not_nil pval : scalar pval = true → pval ≠ cfNil.
Proof. destruct pval; simpl; congruence. Qed.



(** ** Sizing and key-type errors *)

(** C5.  An Array node with more elements than a fixed-size array
    destination has room for gives a sizing error, and the destination is
    returned as it was: no element is written. *)
Theorem C5_fixed_array_overflow ext p values nm cap elem val :
  (cap < length values)%nat →
  unmarshalArray ext p values (TArray nm cap elem) val
  = fail (errArraySize (Z.of_nat (length values)) (Z.of_nat cap)) val ∧
  (noHook ext (TArray nm cap elem) →
   unmarshal ext p (cfArray values) (TArray nm cap elem) val
   = fail (errArraySize (Z.of_nat (length values)) (Z.of_nat cap)) val).
Proof.
  intros Hlen.
  assert (unmarshalArray ext p values (TArray nm cap elem) val
          = fail (errArraySize (Z.of_nat (length values)) (Z.of_nat cap)) val) as Harr.
  { unfold unmarshalArray, unmarshalArrayWith.
    destruct (Z.ltb_spec (Z.of_nat cap) (Z.of_nat (length values))); [reflexivity|lia]. }
  split; [exact Harr|]. intros Hhook.
  rewrite unmarshal_direct by (simpl; congruence).
  rewrite dispatch_array by (reflexivity || assumption). exact Harr.
Qed.

(** C9.  A Dictionary node decoded into a nil map whose key type is not
    convertible from string: the engine installs an empty map in the
    destination first and then returns the key-type error, so the call
    fails and the destination has changed from nil to an empty map. *)
Theorem C9_nil_map_set_before_key_error ext p dict nm key elem :
  ConvertibleTo_string key = false →
  unmarshalDictionary ext p dict (TMap nm key elem) (VMap None)
  = fail (errNonStringKey key) (VMap (Some ∅)) ∧
  (noHook ext (TMap nm key elem) →
   unmarshal ext p (cfDictionary dict) (TMap nm key elem) (VMap None)
   = fail (errNonStringKey key) (VMap (Some ∅))).
Proof.
  intros Hkey.
  assert (unmarshalDictionary ext p dict (TMap nm key elem) (VMap None)
          = fail (errNonStringKey key) (VMap (Some ∅))) as Hdict.
  { unfold unmarshalDictionary, unmarshalDictionaryWith. simpl. rewrite Hkey. reflexivity. }
  split; [exact Hdict|]. intros Hhook.
  rewrite unmarshal_direct by (simpl; congruence).
  rewrite dispatch_dictionary by (reflexivity || assumption). exact Hdict.
Qed.

(** ** Capacity growth *)

Lemma wrap_signed_small x : - 2 ^ 63 ≤ x < 2 ^ 63 → wrap_signed 64 x = x.
Proof.
  intros Hx. unfold wrap_signed.
  change (2 ^ (64 - 1)) with (2 ^ 63) in *. change (2 ^ 64) with (2 * 2 ^ 63) in *.
  rewrite Z.mod_small; lia.
Qed.

Lemma int_add_small a b : - 2 ^ 63 ≤ a + b < 2 ^ 63 → int_add a b = a + b.
Proof. apply wrap_signed_small. Qed.

Lemma growSliceCap_zero : growSliceCap 0 = 4.
Proof. reflexivity. Qed.

Lemma growSliceCap_small cap : 0 < cap < 1024 → growSliceCap cap = 2 * cap.
Proof.
  intros Hcap. unfold growSliceCap.
  destruct (Z.eqb_spec cap 0); [lia|].
  destruct (Z.ltb_spec cap 1024); [|lia].
  unfold int_mul. rewrite wrap_signed_small; lia.
Qed.

Lemma growSliceCap_large cap :
  1024 ≤ cap < 2 ^ 62 → growSliceCap cap = cap + cap / 4.
Proof.
  intros Hcap. unfold growSliceCap.
  destruct (Z.eqb_spec cap 0); [lia|].
  destruct (Z.ltb_spec cap 1024); [lia|].
  assert (cap ÷ 4 = cap / 4) as Hquot by (apply Z.quot_div_nonneg; lia).
  assert (0 ≤ cap / 4 ≤ cap) as Hdiv.
  { split; [apply Z.div_pos; lia|]. apply Z.div_le_upper_bound; lia. }
  unfold int_add, int_div. rewrite Hquot.
  rewrite (wrap_signed_small (cap / 4)) by lia.
  rewrite wrap_signed_small; lia.
Qed.

Lemma growSliceCap_grows cap :
  0 ≤ cap < 2 ^ 62 → cap < growSliceCap cap ≤ Z.max 4 (2 * cap).
Proof.
  intros Hcap.
  destruct (Z.eq_dec cap 0) as [->|Hne]; [rewrite growSliceCap_zero; lia|].
  destruct (Z.lt_ge_cases cap 1024).
  - rewrite growSliceCap_small; lia.
  - rewrite growSliceCap_large by lia.
    assert (1 ≤ cap / 4) by (apply Z.div_le_lower_bound; lia).
    assert (cap / 4 ≤ cap) by (apply Z.div_le_upper_bound; lia). lia.
Qed.

#[local] Hint Resolve growSliceCap_zero growSliceCap_small growSliceCap_large : plist.

(** The growth loop stops at the first capacity that holds [cnt] elements:
    its result is a finite iteration of [growSliceCap], and [cnt] rounds of
    fuel are enough for it. *)
Lemma growLoop_fuel fuel ncap cnt :
  0 ≤ ncap → cnt < 2 ^ 62 → (Z.to_nat (cnt - ncap) ≤ fuel)%nat →
  ∃ k, growLoop fuel ncap cnt = Nat.iter k growSliceCap ncap ∧
       cnt ≤ Nat.iter k growSliceCap ncap ∧
       ncap ≤ Nat.iter k growSliceCap ncap ∧
       ∀ j, (j < k)%nat → Nat.iter j growSliceCap ncap < cnt.
Proof.
  revert ncap. induction fuel as [|fuel IH]; intros ncap Hncap Hcnt Hfuel.
  - exists 0%nat. simpl. repeat split; intros; lia.
  - simpl. destruct (Z.ltb_spec ncap cnt) as [Hlt|Hge].
    + pose proof (growSliceCap_grows ncap ltac:(lia)) as Hgrow.
      destruct (IH (growSliceCap ncap)) as (k & Heq & Hk & Hmono & Hmin); try lia.
      exists (S k). rewrite Nat.iter_succ_r. repeat split; try assumption; try lia.
      intros [|j] Hj; simpl; [assumption|].
      rewrite <- Nat.iter_succ, Nat.iter_succ_r. apply Hmin. lia.
    + exists 0%nat. simpl. repeat split; intros; lia.
Qed.

Lemma growSlice_spec elem backing len cnt :
  (len ≤ length backing)%nat → Z.of_nat len ≤ cnt < 2 ^ 62 →
  let cap := Z.of_nat (length backing) in
  let slots := growSlice elem backing len cnt in
  (Z.to_nat cnt ≤ length slots)%nat ∧
  (∀ j, (j < len)%nat → slots !! j = backing !! j) ∧
  (∀ j, (len ≤ j < length slots)%nat →
     slots !! j = if cap <? cnt then Some (zero elem) else backing !! j) ∧
  (cnt ≤ cap → slots = backing) ∧
  (cap < cnt →
     ∃ k, Z.of_nat (length slots) = Nat.iter k growSliceCap cap ∧
          ∀ j, (j < k)%nat → Nat.iter j growSliceCap cap < cnt).
Proof.
  intros Hlen Hcnt cap slots. subst cap slots. unfold growSlice.
  destruct (Z.ltb_spec (Z.of_nat (length backing)) cnt) as [Hlt|Hge].
  - destruct (growLoop_fuel (Z.to_nat cnt) (Z.of_nat (length backing)) cnt)
      as (k & Heq & Hk & Hmono & Hmin); try lia.
    rewrite Heq. set (ncap := Nat.iter k growSliceCap (Z.of_nat (length backing))) in *.
    assert (length (take len backing ++ replicate (Z.to_nat ncap - len) (zero elem))
            = Z.to_nat ncap) as Hlength.
    { rewrite length_app, length_take, length_replicate. lia. }
    rewrite Hlength. repeat split.
    + lia.
    + intros j Hj. rewrite lookup_app_l by (rewrite length_take; lia).
      apply lookup_take_lt. assumption.
    + intros j Hj. rewrite lookup_app_r by (rewrite length_take; lia).
      rewrite length_take. apply lookup_replicate_2. lia.
    + lia.
    + intros _. exists k. split; [lia|assumption].
  - repeat split; try reflexivity; try lia.
Qed.

(** ** The element loop of sequence decode *)

Section ElementLoop.

Context (f : cfValue → rtype → rvalue → outcome) (elem : rtype).

(** The loop writes only slots from index [n] on and keeps the length. *)
Lemma arrayLoop_frame values n resultErr slots :
  length (arrayLoop f elem values n resultErr slots).2 = length slots ∧
  ∀ j, (j < n)%nat → (arrayLoop f elem values n resultErr slots).2 !! j = slots !! j.
Proof.
  revert n resultErr slots.
  induction values as [|sval rest IH]; intros n resultErr slots; simpl; [auto|].
  destruct (slots !! n) as [slot|]; [|auto].
  destruct (f sval elem slot) as [[[err|]|v] slot']; simpl.
  - destruct (IH (S n) (multierror_Append resultErr (errElement (Z.of_nat n) err))
                (<[n:=slot']> slots)) as [Hlen Hlow].
    rewrite Hlen, length_insert. split; [reflexivity|].
    intros j Hj. rewrite Hlow by lia. apply list_lookup_insert_ne. lia.
  - destruct (IH (S n) resultErr (<[n:=slot']> slots)) as [Hlen Hlow].
    rewrite Hlen, length_insert. split; [reflexivity|].
    intros j Hj. rewrite Hlow by lia. apply list_lookup_insert_ne. lia.
  - rewrite length_insert. split; [reflexivity|].
    intros j Hj. apply list_lookup_insert_ne. lia.
Qed.

Lemma elementErrors_insert values n slots j x :
  (j < n)%nat →
  elementErrors f elem values n (<[j:=x]> slots) = elementErrors f elem values n slots.
Proof.
  revert n. induction values as [|sval rest IH]; intros n Hj; simpl; [reflexivity|].
  rewrite list_lookup_insert_ne by lia. rewrite IH by lia. reflexivity.
Qed.

Lemma elementErrors_elem_of values n slots i sval slot err :
  values !! i = Some sval → slots !! (n + i)%nat = Some slot →
  (f sval elem slot).1 = Returns (Some err) →
  errElement (Z.of_nat (n + i)) err ∈ elementErrors f elem values n slots.
Proof.
  revert n i. induction values as [|sval' rest IH]; intros n i Hval Hslot Herr;
    [discriminate|].
  simpl. apply elem_of_app. destruct i as [|i]; simpl in Hval.
  - left. injection Hval as ->. rewrite Nat.add_0_r in *. rewrite Hslot, Herr.
    apply list_elem_of_singleton. reflexivity.
  - right. replace (n + S i)%nat with (S n + i)%nat in * by lia. eauto.
Qed.

Lemma elementErrors_inv values n slots e :
  e ∈ elementErrors f elem values n slots →
  ∃ i sval slot err, values !! i = Some sval ∧ slots !! (n + i)%nat = Some slot ∧
    (f sval elem slot).1 = Returns (Some err) ∧ e = errElement (Z.of_nat (n + i)) err.
Proof.
  revert n. induction values as [|sval rest IH]; intros n He; simpl in He.
  - apply elem_of_nil in He. contradiction.
  - apply elem_of_app in He as [He|He].
    + destruct (slots !! n) as [slot|] eqn:Hslot; [|apply elem_of_nil in He; contradiction].
      destruct (f sval elem slot).1 as [[err|]|v] eqn:Hres;
        try (apply elem_of_nil in He; contradiction).
      apply list_elem_of_singleton in He. exists 0%nat, sval, slot, err.
      rewrite Nat.add_0_r. auto.
    + destruct (IH _ He) as (i & sval' & slot & err & Hval & Hslot & Hres & ->).
      exists (S i), sval', slot, err.
      replace (n + S i)%nat with (S n + i)%nat by lia. auto.
Qed.

Lemma multierror_Append_all resultErr errs :
  foldl multierror_Append resultErr errs =
  match resultErr, errs with
  | _, [] => resultErr
  | None, _ => Some (multierror_Error errs)
  | Some (multierror_Error es), _ => Some (multierror_Error (es ++ errs))
  | Some other, _ => Some (multierror_Error (other :: errs))
  end.
Proof.
  revert resultErr. induction errs as [|e errs IH]; intros resultErr.
  - destruct resultErr as [[]|]; reflexivity.
  - simpl. rewrite IH.
    destruct resultErr as [[]|]; destruct errs; simpl;
      rewrite <- ?app_assoc; reflexivity.
Qed.

Lemma aggregate_foldl errs : foldl multierror_Append None errs = aggregate errs.
Proof. rewrite multierror_Append_all. destruct errs; reflexivity. Qed.

(** When no element decode panics, the loop decodes every element into its
    slot and returns the errors of the failing ones, appended in order. *)
Lemma arrayLoop_returns values n resultErr slots :
  (n + length values ≤ length slots)%nat →
  (∀ i sval slot, values !! i = Some sval → slots !! (n + i)%nat = Some slot →
     ∃ r v, f sval elem slot = (Returns r, v)) →
  ∃ slots',
    arrayLoop f elem values n resultErr slots
    = (Returns (foldl multierror_Append resultErr (elementErrors f elem values n slots)),
       slots') ∧
    ∀ i sval slot, values !! i = Some sval → slots !! (n + i)%nat = Some slot →
      slots' !! (n + i)%nat = Some (f sval elem slot).2.
Proof.
  revert n resultErr slots.
  induction values as [|sval rest IH]; intros n resultErr slots Hlen Hret.
  - exists slots. split; [reflexivity|]. intros i sval slot Hval. discriminate.
  - simpl in Hlen.
    destruct (lookup_lt_is_Some_2 slots n ltac:(lia)) as [slot Hslot].
    destruct (Hret 0%nat sval slot eq_refl ltac:(rewrite Nat.add_0_r; exact Hslot))
      as (r & v & Hf).
    assert (∀ r', ∃ slots',
      arrayLoop f elem rest (S n) r' (<[n:=v]> slots)
      = (Returns (foldl multierror_Append r' (elementErrors f elem rest (S n) slots)), slots')
      ∧ ∀ i sval slot, rest !! i = Some sval → slots !! (S n + i)%nat = Some slot →
          slots' !! (S n + i)%nat = Some (f sval elem slot).2) as Hrest.
    { intros r'.
      destruct (IH (S n) r' (<[n:=v]> slots)) as (slots' & Hloop & Helems).
      - rewrite length_insert. lia.
      - intros i sval' slot' Hval Hslot'.
        rewrite list_lookup_insert_ne in Hslot' by lia.
        apply (Hret (S i) sval' slot' Hval).
        replace (n + S i)%nat with (S n + i)%nat by lia. exact Hslot'.
      - exists slots'. rewrite elementErrors_insert in Hloop by lia.
        split; [exact Hloop|]. intros i sval' slot' Hval Hslot'.
        apply Helems; [exact Hval|]. rewrite list_lookup_insert_ne by lia. exact Hslot'. }
    simpl. rewrite Hslot, Hf. simpl.
    destruct (Hrest (match r with
                     | Some err => multierror_Append resultErr (errElement (Z.of_nat n) err)
                     | None => resultErr
                     end)) as (slots' & Hloop & Helems).
    exists slots'. split.
    + destruct r as [err|]; simpl; exact Hloop.
    + intros [|i] sval' slot' Hval Hslot'; simpl in Hval.
      * injection Hval as <-. rewrite Nat.add_0_r in *.
        rewrite Hslot in Hslot'. injection Hslot' as <-. rewrite Hf. simpl.
        assert (slots' = (arrayLoop f elem rest (S n)
                  (match r with
                   | Some err => multierror_Append resultErr (errElement (Z.of_nat n) err)
                   | None => resultErr
                   end) (<[n:=v]> slots)).2) as -> by (rewrite Hloop; reflexivity).
        destruct (arrayLoop_frame rest (S n)
                  (match r with
                   | Some err => multierror_Append resultErr (errElement (Z.of_nat n) err)
                   | None => resultErr
                   end) (<[n:=v]> slots)) as [_ Hlow].
        rewrite Hlow by lia. apply list_lookup_insert_eq. lia.
      * replace (n + S i)%nat with (S n + i)%nat in * by lia. eauto.
Qed.

End ElementLoop.

(** ** Sequence decode *)

(** C3 (amended).  During sequence decode, whenever decoding one element
    returns an error, that error is recorded in the aggregated collection
    tagged with the index of the element's slot in the destination (the
    source position for a fixed-size array, the initial length plus the
    source position for a slice), and decoding continues: provided no
    element decode panics, every element is decoded into its slot and the
    returned collection holds exactly the errors of the failing elements,
    in source order. *)
Theorem C3_element_errors_tagged_by_slot ext p values typ val elem n slots :
  elementSlots values typ val = Some (elem, n, slots) →
  (n + length values ≤ length slots)%nat →
  noPanic (unmarshal ext p) elem values n slots →
  let result := unmarshalArray ext p values typ val in
  n = sliceLen val ∧
  result.1 = Returns (aggregate (elementErrors (unmarshal ext p) elem values n slots)) ∧
  (∀ i sval slot, values !! i = Some sval → slots !! (n + i)%nat = Some slot →
     elementsOf result.2 !! (n + i)%nat = Some (unmarshal ext p sval elem slot).2 ∧
     ∀ err, (unmarshal ext p sval elem slot).1 = Returns (Some err) →
       errElement (Z.of_nat (n + i)) err
       ∈ elementErrors (unmarshal ext p) elem values n slots) ∧
  (∀ e, e ∈ elementErrors (unmarshal ext p) elem values n slots →
     ∃ i sval slot err, values !! i = Some sval ∧ slots !! (n + i)%nat = Some slot ∧
       (unmarshal ext p sval elem slot).1 = Returns (Some err) ∧
       e = errElement (Z.of_nat (n + i)) err).
Proof.
  intros Hslots Hroom Hreturns result.
  destruct (arrayLoop_returns (unmarshal ext p) elem values n None slots Hroom Hreturns)
    as (slots' & Hloop & Helems).
  rewrite aggregate_foldl in Hloop.
  assert (n = sliceLen val ∧ result.1
          = Returns (aggregate (elementErrors (unmarshal ext p) elem values n slots))
          ∧ elementsOf result.2 = slots') as (Hn & Hres & Hdest).
  { subst result. unfold unmarshalArray, unmarshalArrayWith.
    destruct typ as [| | |nm elem'|nm cap elem'| | | |]; try discriminate; simpl in Hslots.
    - destruct val; try discriminate. injection Hslots as -> -> <-.
      rewrite Hloop. auto.
    - destruct val; try discriminate.
      destruct (Z.of_nat cap <? Z.of_nat (length values)); [discriminate|].
      injection Hslots as -> <- ->. rewrite Hloop. auto. }
  split; [exact Hn|]. split; [exact Hres|]. split.
  - intros i sval slot Hval Hslot. rewrite Hdest. split; [eauto|].
    intros err Herr. eapply elementErrors_elem_of; eauto.
  - intros e He. apply elementErrors_inv. exact He.
Qed.

(** C2 (amended).  An Array node with N elements decoded into a slice of
    length L leaves the slice with length L+N and its elements at [0,L)
    unchanged; provided no element decode panics, the element at L+i is the
    result of decoding source element i into the slot at that index, which
    holds the zero value when the backing array was reallocated and the old
    contents of the spare capacity otherwise.  The capacity stays when it
    holds L+N elements; otherwise it grows by the least number of steps that
    reaches L+N, a step taking capacity 0 to 4, doubling a capacity below
    1024, and adding a quarter (rounded down) from 1024 on. *)
Theorem C2_slice_append_and_growth ext p values nm elem backing len :
  (len ≤ length backing)%nat →
  Z.of_nat (length values + len) < 2 ^ 62 →
  let cap := Z.of_nat (length backing) in
  let cnt := Z.of_nat (length values + len) in
  let slots := growSlice elem backing len cnt in
  ∃ backing',
    (unmarshalArray ext p values (TSlice nm elem) (VSlice backing len)).2
    = VSlice backing' (len + length values) ∧
    (len + length values ≤ length backing')%nat ∧
    (∀ j, (j < len)%nat → backing' !! j = backing !! j) ∧
    (∀ j, (len ≤ j < length slots)%nat →
       slots !! j = if cap <? cnt then Some (zero elem) else backing !! j) ∧
    (noPanic (unmarshal ext p) elem values len slots →
     ∀ i sval slot, values !! i = Some sval → slots !! (len + i)%nat = Some slot →
       backing' !! (len + i)%nat = Some (unmarshal ext p sval elem slot).2) ∧
    (cnt ≤ cap → length backing' = length backing) ∧
    (cap < cnt →
       ∃ k, Z.of_nat (length backing') = Nat.iter k growSliceCap cap ∧
            ∀ j, (j < k)%nat → Nat.iter j growSliceCap cap < cnt) ∧
    growSliceCap 0 = 4 ∧
    (∀ c, 0 < c < 1024 → growSliceCap c = 2 * c) ∧
    (∀ c, 1024 ≤ c < 2 ^ 62 → growSliceCap c = c + c / 4).
Proof.
  intros Hlen Hbound cap cnt slots.
  assert (int_add (Z.of_nat (length values)) (Z.of_nat len) = cnt) as Hcnt.
  { subst cnt. rewrite int_add_small; lia. }
  destruct (growSlice_spec elem backing len cnt Hlen ltac:(subst cnt; lia))
    as (Hroom & Hlow & Hhigh & Hstay & Hgrow).
  fold slots in Hroom, Hlow, Hhigh, Hstay, Hgrow. fold cap in Hhigh, Hstay, Hgrow.
  set (loop := arrayLoop (unmarshal ext p) elem values len None slots).
  destruct (arrayLoop_frame (unmarshal ext p) elem values len None slots)
    as [Hlength Hframe]. fold loop in Hlength, Hframe.
  exists loop.2.
  assert ((unmarshalArray ext p values (TSlice nm elem) (VSlice backing len)).2
          = VSlice loop.2 (len + length values)) as Hresult.
  { unfold unmarshalArray, unmarshalArrayWith. rewrite Hcnt. fold slots. fold loop.
    destruct loop as [r b]. simpl. f_equal. subst cnt. lia. }
  split; [exact Hresult|]. split; [subst cnt; lia|]. split.
  { intros j Hj. rewrite Hframe by exact Hj. apply Hlow. exact Hj. }
  split; [exact Hhigh|]. split.
  { intros Hreturns i sval slot Hval Hslot.
    destruct (arrayLoop_returns (unmarshal ext p) elem values len None slots
                ltac:(subst cnt; lia) Hreturns) as (slots' & Hloop & Helems).
    subst loop. rewrite Hloop. simpl. eauto. }
  split. { intros Hfits. rewrite Hlength, (Hstay Hfits). reflexivity. }
  split. { intros Hsmall. rewrite Hlength. apply Hgrow. exact Hsmall. }
  repeat split; auto with plist.
Qed.

(** ** Mapping decode into a record *)

Lemma lastValue_None k dict : lastValue k dict = None ↔ k ∉ dict.*1.
Proof.
  induction dict as [|[k' v] rest IH]; simpl.
  - split; [intros _; apply not_elem_of_nil|reflexivity].
  - rewrite not_elem_of_cons. destruct (lastValue k rest).
    + split; [discriminate|]. intros [_ Hrest]. apply IH in Hrest. discriminate.
    + destruct (decide (k' = k)) as [->|Hne].
      * split; [discriminate|]. intros [Hne _]. congruence.
      * split; [|reflexivity]. intros _. split; [congruence|]. apply IH. reflexivity.
Qed.

Lemma lastValue_app_cons_ne k before k' v after :
  k' ≠ k → lastValue k (before ++ (k', v) :: after) = lastValue k (before ++ after).
Proof.
  intros Hne. induction before as [|[k0 v0] before IH]; simpl.
  - destruct (lastValue k after); [reflexivity|].
    destruct (decide (k' = k)); [congruence|reflexivity].
  - rewrite IH. reflexivity.
Qed.

Section RecordLoop.

Context (typ : rtype).

(** The field loop reads the lookup only at the names of the descriptors. *)
Lemma structLoop_ext (entries1 entries2 : gmap string (rtype → rvalue → outcome)) fields :
  (∀ finfo, finfo ∈ fields → entries1 !! name finfo = entries2 !! name finfo) →
  ∀ val resultErr,
    structLoop entries1 fields typ val resultErr
    = structLoop entries2 fields typ val resultErr.
Proof.
  induction fields as [|finfo rest IH]; intros Hagree val resultErr; [reflexivity|].
  cbn [structLoop]. unfold outcome in *. rewrite <- (Hagree finfo) by apply list_elem_of_here.
  assert (∀ finfo', finfo' ∈ rest → entries1 !! name finfo' = entries2 !! name finfo')
    as Hrest by (intros; apply Hagree; apply list_elem_of_further; assumption).
  destruct (entries1 !! name finfo) as [ent|]; [|apply IH; exact Hrest].
  destruct (valueForWriting finfo typ val) as [[[ftyp canSet] fieldVal]|]; [|reflexivity].
  destruct canSet; [|apply IH; exact Hrest].
  destruct (ent ftyp fieldVal) as [[[err|]|v] fieldVal']; try reflexivity;
    apply IH; exact Hrest.
Qed.

Lemma fieldAt_setField finfo val fval j :
  idx finfo ≠ j → fieldAt j (setField finfo val fval) = fieldAt j val.
Proof.
  intros Hne. destruct val; try reflexivity. simpl.
  apply list_lookup_insert_ne. exact Hne.
Qed.

(** A field is written only through a descriptor whose name the lookup has. *)
Lemma structLoop_untouched (entries : gmap string (rtype → rvalue → outcome)) fields j :
  (∀ finfo, finfo ∈ fields → idx finfo = j → entries !! name finfo = None) →
  ∀ val resultErr,
    fieldAt j (structLoop entries fields typ val resultErr).2 = fieldAt j val.
Proof.
  induction fields as [|finfo rest IH]; intros Habsent val resultErr; [reflexivity|].
  assert (∀ finfo', finfo' ∈ rest → idx finfo' = j → entries !! name finfo' = None)
    as Hrest by (intros; apply Habsent; [apply list_elem_of_further|]; assumption).
  cbn [structLoop]. unfold outcome in *.
  destruct (entries !! name finfo) as [ent|] eqn:Hent; [|apply IH; exact Hrest].
  assert (idx finfo ≠ j) as Hne.
  { intros Hj. rewrite (Habsent finfo) in Hent; [discriminate|apply list_elem_of_here|exact Hj]. }
  destruct (valueForWriting finfo typ val) as [[[ftyp canSet] fieldVal]|]; [|reflexivity].
  destruct canSet; [|apply IH; exact Hrest].
  destruct (ent ftyp fieldVal) as [[[err|]|v] fieldVal']; simpl;
    rewrite ?IH by exact Hrest; apply fieldAt_setField; exact Hne.
Qed.

End RecordLoop.

(** C6.  A Dictionary node decoded into a record: the outcome (error and
    destination) depends on the dictionary only through the values of the
    keys named by the field descriptors, so a pair whose key has no
    descriptor can be dropped without changing anything; and a field none of
    whose descriptors is named by a key of the dictionary is left as it
    was. *)
Theorem C6_record_unknown_keys_and_absent_fields ext p typ val tinfo :
  Kind typ = reflect.Struct → getTypeInfo ext typ = inl tinfo →
  (∀ dict dict',
     (∀ finfo, finfo ∈ fields tinfo →
        lastValue (name finfo) dict' = lastValue (name finfo) dict) →
     unmarshalDictionary ext p dict' typ val = unmarshalDictionary ext p dict typ val) ∧
  (∀ before k v after,
     (∀ finfo, finfo ∈ fields tinfo → name finfo ≠ k) →
     unmarshalDictionary ext p (before ++ (k, v) :: after) typ val
     = unmarshalDictionary ext p (before ++ after) typ val) ∧
  (∀ dict j,
     (∀ finfo, finfo ∈ fields tinfo → idx finfo = j → name finfo ∉ dict.*1) →
     fieldAt j (unmarshalDictionary ext p dict typ val).2 = fieldAt j val).
Proof.
  intros Hkind Hinfo.
  assert (∀ dict dict',
     (∀ finfo, finfo ∈ fields tinfo →
        lastValue (name finfo) dict' = lastValue (name finfo) dict) →
     unmarshalDictionary ext p dict' typ val = unmarshalDictionary ext p dict typ val)
    as Hdepends.
  { intros dict dict' Hagree. unfold unmarshalDictionary, unmarshalDictionaryWith.
    rewrite Hkind, Hinfo. apply structLoop_ext. intros finfo Hfinfo.
    rewrite !entries_lookup, (Hagree finfo Hfinfo). reflexivity. }
  split; [exact Hdepends|]. split.
  - intros before k v after Hunknown. apply Hdepends. intros finfo Hfinfo.
    apply lastValue_app_cons_ne. apply not_eq_sym. apply Hunknown. exact Hfinfo.
  - intros dict j Habsent. unfold unmarshalDictionary, unmarshalDictionaryWith.
    rewrite Hkind, Hinfo. apply structLoop_untouched. intros finfo Hfinfo Hj.
    rewrite entries_lookup.
    apply (Habsent finfo Hfinfo) in Hj. apply lastValue_None in Hj. rewrite Hj. reflexivity.
Qed.

(** ** Mapping decode into a map *)

Section MapLoop.

Context (f : cfValue → rtype → rvalue → outcome) (elem : rtype).

(** When the loop returns, the map holds for each key the decoded value of
    the last pair of that key that decoded without error, and its old entry
    when there is none. *)
Lemma mapLoop_lookup dict resultErr m r m' k :
  mapLoop f elem dict resultErr m = (Returns r, m') →
  m' !! k = match lastDecoded f elem k dict with Some x => Some x | None => m !! k end.
Proof.
  revert resultErr m. induction dict as [|[k' sval] rest IH]; intros resultErr m Hloop.
  - injection Hloop as _ <-. reflexivity.
  - simpl in *. destruct (f sval elem (zero elem)) as [[[err|]|v] x].
    + rewrite (IH _ _ Hloop). destruct (lastDecoded f elem k rest); [reflexivity|].
      destruct (decide (k' = k)); reflexivity.
    + rewrite (IH _ _ Hloop). destruct (lastDecoded f elem k rest); [reflexivity|].
      destruct (decide (k' = k)) as [->|Hne].
      * apply lookup_insert_eq.
      * apply lookup_insert_ne. exact Hne.
    + discriminate.
Qed.

Lemma lastDecoded_None k dict :
  (∀ sval, (k, sval) ∈ dict → ∀ x, f sval elem (zero elem) ≠ succeed x) →
  lastDecoded f elem k dict = None.
Proof.
  induction dict as [|[k' sval] rest IH]; intros Hfail; [reflexivity|].
  simpl. rewrite IH by (intros; apply Hfail; apply list_elem_of_further; assumption).
  destruct (decide (k' = k)) as [->|]; [|reflexivity].
  pose proof (Hfail sval ltac:(apply list_elem_of_here)) as Hsval.
  destruct (f sval elem (zero elem)) as [[[err|]|v] x]; try reflexivity.
  exfalso. apply (Hsval x). reflexivity.
Qed.


Lemma lastDecoded_app_cons k before sval x after :
  f sval elem (zero elem) = succeed x →
  (∀ sval', (k, sval') ∈ after → ∀ x', f sval' elem (zero elem) ≠ succeed x') →
  lastDecoded f elem k (before ++ (k, sval) :: after) = Some x.
Proof.
  intros Hdec Hfail. induction before as [|[k' v] before IH]; simpl.
  - rewrite lastDecoded_None by exact Hfail.
    destruct (decide (k = k)); [|congruence]. rewrite Hdec. reflexivity.
  - rewrite IH. reflexivity.
Qed.

End MapLoop.

Lemma unmarshalDictionary_map ext p dict nm key elem m :
  ConvertibleTo_string key = true →
  unmarshalDictionary ext p dict (TMap nm key elem) (VMap m) =
  let loop := mapLoop (unmarshal ext p) elem dict None (default ∅ m) in
  (loop.1, VMap (Some loop.2)).
Proof.
  intros Hkey. unfold unmarshalDictionary, unmarshalDictionaryWith. simpl.
  rewrite Hkey. simpl. destruct m; simpl; destruct (mapLoop _ _ _ _ _); reflexivity.
Qed.


(** C10.  In mapping decode into a map, a pair whose value fails to decode
    sets no entry: the loop goes on with the map as it was and the error
    recorded under the key.  When the call returns, each key maps to the
    decoded value of its last pair that decoded without error, or to its old
    entry when it has none; so when a later pair of a key fails, the value
    decoded from the earlier pair stays. *)
Theorem C10_failed_map_value_sets_no_entry ext p elem :
  (∀ k sval rest resultErr m err x,
     unmarshal ext p sval elem (zero elem) = (Returns (Some err), x) →
     mapLoop (unmarshal ext p) elem ((k, sval) :: rest) resultErr m
     = mapLoop (unmarshal ext p) elem rest (multierror_Append resultErr (errMapKey k err)) m) ∧
  (∀ dict nm key m r val',
     ConvertibleTo_string key = true →
     unmarshalDictionary ext p dict (TMap nm key elem) (VMap m) = (Returns r, val') →
     ∃ m', val' = VMap (Some m') ∧
       (∀ k, m' !! k = match lastDecoded (unmarshal ext p) elem k dict with
                       | Some x => Some x
                       | None => default ∅ m !! k
                       end) ∧
       (∀ k before sval x after,
          dict = before ++ (k, sval) :: after →
          unmarshal ext p sval elem (zero elem) = succeed x →
          (∀ sval', (k, sval') ∈ after →
             ∀ x', unmarshal ext p sval' elem (zero elem) ≠ succeed x') →
          m' !! k = Some x)).
Proof.
  split.
  - intros k sval rest resultErr m err x Hfail. simpl. rewrite Hfail. reflexivity.
  - intros dict nm key m r val' Hkey Hcall.
    rewrite unmarshalDictionary_map in Hcall by exact Hkey. cbv zeta in Hcall.
    destruct (mapLoop (unmarshal ext p) elem dict None (default ∅ m)) as [c m'] eqn:Hloop.
    simpl in Hcall. injection Hcall as -> <-. exists m'. split; [reflexivity|].
    assert (∀ k, m' !! k = match lastDecoded (unmarshal ext p) elem k dict with
                           | Some x => Some x
                           | None => default ∅ m !! k
                           end) as Hlookup
      by (intros k; apply (mapLoop_lookup _ _ _ _ _ _ _ k Hloop)).
    split; [exact Hlookup|].
    intros k before sval x after -> Hdec Hfail.
    rewrite Hlookup, (lastDecoded_app_cons _ _ _ _ _ _ _ Hdec Hfail). reflexivity.
Qed.
Example unmarshal_number_int8 :
  unmarshal Sample.externals Sample.strict (cfNumber false 300) Sample.int8T (VInt 0)
  = succeed (VInt 44).
Proof. reflexivity. Qed.

Example unmarshal_lax_string_int :
  unmarshal Sample.externals Sample.relaxed (cfString "42") Sample.intT (VInt 0)
  = succeed (VInt 42).
Proof. reflexivity. Qed.

Example unmarshal_strict_string_int :
  unmarshal Sample.externals Sample.strict (cfString "42") Sample.intT (VInt 0)
  = fail (incompatibleDecodeTypeError Sample.intT "string") (VInt 0).
Proof. reflexivity. Qed.

Example unmarshal_nil_pointer :
  unmarshal Sample.externals Sample.strict (cfBoolean true) (TPtr (TPtr Sample.boolT)) (VPtr None)
  = succeed (VPtr (Some (VPtr (Some (VBool true))))).
Proof. reflexivity. Qed.

Example unmarshal_data_array5 :
  unmarshal Sample.externals Sample.strict (cfData [Byte.x01; Byte.x02; Byte.x03])
    (TArray "" 5 Sample.uint8T) (VArray (replicate 5 (VUint 9)))
  = succeed (VArray [VUint 1; VUint 2; VUint 3; VUint 9; VUint 9]).
Proof. reflexivity. Qed.

Example unmarshal_array_nil_slice :
  unmarshal Sample.externals Sample.strict
    (cfArray [cfNumber true 1; cfString "x"; cfNumber true 3]) (TSlice "" Sample.intT) (VSlice [] 0)
  = (Returns (Some (multierror_Error
       [errElement 1 (incompatibleDecodeTypeError Sample.intT "string")])),
     VSlice [VInt 1; VInt 0; VInt 3; VInt 0] 3).
Proof. vm_compute. reflexivity. Qed.

Example unmarshal_struct :
  unmarshal Sample.externals Sample.strict
    (cfDictionary [("A", cfNumber true 5); ("b", cfBoolean true);
                   ("C", cfString "x"); ("D", cfReal true (S754_zero false))])
    (TStruct "T" [("A", true, Sample.intT); ("b", false, Sample.boolT);
                  ("C", true, TPtr stringType); ("E", true, Sample.boolT)])
    (VStruct [VInt 0; VBool false; VPtr None; VBool true])
  = (Returns (Some (multierror_Error [errFieldNotSettable "b"])),
     VStruct [VInt 5; VBool false; VPtr (Some (VString "x")); VBool true]).
Proof. vm_compute. reflexivity. Qed.

(** ** The properties at concrete inputs *)



(** C2 as stated fails.  Spare capacity is reused as it is: a slice of
    slices with length 0 whose backing array still holds [1, 2] receives the
    source element [7] appended to that old content, where the decoded
    element is [7].  And a capacity of 0 grows to 4, which is neither its
    double nor a quarter more. *)
Lemma C2_counterexample :
  unmarshalArray Sample.externals Sample.strict [cfArray [cfNumber true 7]]
    (TSlice "" (TSlice "" Sample.intT)) (VSlice [VSlice [VInt 1; VInt 2] 2] 0)
  = succeed (VSlice [VSlice [VInt 1; VInt 2; VInt 7; VInt 0] 3] 1) ∧
  unmarshal Sample.externals Sample.strict (cfArray [cfNumber true 7])
    (TSlice "" Sample.intT) (zero (TSlice "" Sample.intT))
  = succeed (VSlice [VInt 7; VInt 0; VInt 0; VInt 0] 1) ∧
  unmarshalArray Sample.externals Sample.strict [cfBoolean true]
    (TSlice "" Sample.boolT) (VSlice [] 0)
  = succeed (VSlice [VBool true; VBool false; VBool false; VBool false] 1) ∧
  growSliceCap 0 = 4 ∧ growSliceCap 0 ≠ 2 * 0 ∧ growSliceCap 0 ≠ 0 + 0 / 4.
Proof. repeat split; try (vm_compute; reflexivity); vm_compute; discriminate. Qed.

Lemma C2_witness :
  (1 ≤ length [VBool false; VBool true])%nat ∧
  Z.of_nat (length [cfBoolean true; cfString "x"] + 1) < 2 ^ 62 ∧
  ∃ backing',
    (unmarshalArray Sample.externals Sample.strict [cfBoolean true; cfString "x"]
       (TSlice "" Sample.boolT) (VSlice [VBool false; VBool true] 1)).2
    = VSlice backing' (1 + 2) ∧
    (∀ j, (j < 1)%nat → backing' !! j = [VBool false; VBool true] !! j).
Proof.
  assert (1 ≤ length [VBool false; VBool true])%nat as Hlen by (simpl; lia).
  assert (Z.of_nat (length [cfBoolean true; cfString "x"] + 1) < 2 ^ 62) as Hbound
    by (simpl; lia).
  split; [exact Hlen|]. split; [exact Hbound|].
  destruct (C2_slice_append_and_growth Sample.externals Sample.strict
              [cfBoolean true; cfString "x"] "" Sample.boolT [VBool false; VBool true] 1
              Hlen Hbound) as (backing' & Hresult & _ & Hprefix & _).
  exists backing'. split; [exact Hresult|exact Hprefix].
Defined.

(** C3 as stated fails: decoded into a slice that already holds one element,
    the failing element at position 0 of the source array is recorded as
    element 1.  And a decode that panics is not recorded and ends the loop:
    in lax mode, with a parsing helper that panics on "x", the element
    after the malformed one is never decoded. *)
Lemma C3_counterexample :
  unmarshalArray Sample.externals Sample.strict [cfString "x"]
    (TSlice "" Sample.boolT) (VSlice [VBool true] 1)
  = (Returns (Some (multierror_Error
       [errElement 1 (incompatibleDecodeTypeError Sample.boolT "string")])),
     VSlice [VBool true; VBool false] 2) ∧
  unmarshalArray Sample.externals Sample.relaxed [cfString "x"; cfString "5"]
    (TSlice "" Sample.intT) (VSlice [] 0)
  = (Panics (Sample.syntaxError "ParseInt" "x"),
     VSlice [VInt 0; VInt 0; VInt 0; VInt 0] 2).
Proof. split; vm_compute; reflexivity. Qed.

Lemma C3_witness :
  let values := [cfString "x"; cfBoolean true] in
  let slots := [VBool true; VBool false; VBool false; VBool false] in
  elementSlots values (TSlice "" Sample.boolT) (VSlice [VBool true] 1)
  = Some (Sample.boolT, 1%nat, slots) ∧
  (1 + length values ≤ length slots)%nat ∧
  noPanic (unmarshal Sample.externals Sample.strict) Sample.boolT values 1 slots ∧
  (unmarshalArray Sample.externals Sample.strict values
     (TSlice "" Sample.boolT) (VSlice [VBool true] 1)).1
  = Returns (aggregate (elementErrors (unmarshal Sample.externals Sample.strict)
                          Sample.boolT values 1 slots)).
Proof.
  intros values slots.
  assert (elementSlots values (TSlice "" Sample.boolT) (VSlice [VBool true] 1)
          = Some (Sample.boolT, 1%nat, slots)) as Hslots by (vm_compute; reflexivity).
  assert (1 + length values ≤ length slots)%nat as Hroom by (simpl; lia).
  assert (noPanic (unmarshal Sample.externals Sample.strict) Sample.boolT values 1 slots)
    as Hreturns.
  { intros [|[|i]] sval slot Hval Hslot; simpl in Hval, Hslot; try discriminate;
      injection Hval as <-; injection Hslot as <-; eexists _, _; reflexivity. }
  split; [exact Hslots|]. split; [exact Hroom|]. split; [exact Hreturns|].
  apply (C3_element_errors_tagged_by_slot Sample.externals Sample.strict values
           (TSlice "" Sample.boolT) (VSlice [VBool true] 1) Sample.boolT 1 slots
           Hslots Hroom Hreturns).
Defined.



Lemma C5_witness :
  (2 < length [cfBoolean true; cfBoolean false; cfBoolean true])%nat ∧
  unmarshalArray Sample.externals Sample.strict
    [cfBoolean true; cfBoolean false; cfBoolean true]
    (TArray "" 2 Sample.boolT) (VArray [VBool false; VBool false])
  = fail (errArraySize 3 2) (VArray [VBool false; VBool false]).
Proof.
  assert (2 < length [cfBoolean true; cfBoolean false; cfBoolean true])%nat as Hlen
    by (simpl; lia).
  split; [exact Hlen|].
  exact (proj1 (C5_fixed_array_overflow Sample.externals Sample.strict
           [cfBoolean true; cfBoolean false; cfBoolean true] "" 2 Sample.boolT
           (VArray [VBool false; VBool false]) Hlen)).
Defined.

Lemma C9_witness :
  ConvertibleTo_string Sample.intT = false ∧
  unmarshalDictionary Sample.externals Sample.strict [("a", cfBoolean true)]
    (TMap "" Sample.intT Sample.boolT) (VMap None)
  = fail (errNonStringKey Sample.intT) (VMap (Some ∅)).
Proof.
  split; [reflexivity|].
  exact (proj1 (C9_nil_map_set_before_key_error Sample.externals Sample.strict
           [("a", cfBoolean true)] "" Sample.intT Sample.boolT eq_refl)).
Defined.

Lemma C6_witness :
  let typ := TStruct "T" [("A", true, Sample.intT); ("B", true, Sample.boolT)] in
  let tinfo := {| fields := [{| name := "A"; idx := 0 |}; {| name := "B"; idx := 1 |}] |} in
  let val := VStruct [VInt 5; VBool true] in
  let dict := [("A", cfNumber true 9); ("Z", cfString "q")] in
  Kind typ = reflect.Struct ∧ getTypeInfo Sample.externals typ = inl tinfo ∧
  unmarshalDictionary Sample.externals Sample.strict dict typ val
  = unmarshalDictionary Sample.externals Sample.strict [("A", cfNumber true 9)] typ val ∧
  fieldAt 1 (unmarshalDictionary Sample.externals Sample.strict dict typ val).2
  = fieldAt 1 val.
Proof.
  intros typ tinfo val dict.
  destruct (C6_record_unknown_keys_and_absent_fields Sample.externals Sample.strict
              typ val tinfo eq_refl eq_refl) as (_ & Hignored & Huntouched).
  split; [reflexivity|]. split; [reflexivity|]. split.
  - apply (Hignored [("A", cfNumber true 9)] "Z" (cfString "q") []).
    intros finfo Hin. simpl in Hin.
    apply elem_of_cons in Hin as [->|Hin]; [discriminate|].
    apply elem_of_cons in Hin as [->|Hin]; [discriminate|].
    apply elem_of_nil in Hin. contradiction.
  - apply Huntouched. intros finfo Hin Hidx. simpl in Hin.
    apply elem_of_cons in Hin as [->|Hin]; [discriminate|].
    apply elem_of_cons in Hin as [->|Hin].
    + simpl. intros Hkey.
      apply elem_of_cons in Hkey as [Hkey|Hkey]; [discriminate|].
      apply elem_of_cons in Hkey as [Hkey|Hkey]; [discriminate|].
      apply elem_of_nil in Hkey. contradiction.
    + apply elem_of_nil in Hin. contradiction.
Defined.


Lemma C10_witness :
  let dict := [("a", cfNumber true 1); ("a", cfString "x")] in
  let err := errMapKey "a" (incompatibleDecodeTypeError Sample.intT "string") in
  ConvertibleTo_string stringType = true ∧
  unmarshalDictionary Sample.externals Sample.strict dict
    (TMap "" stringType Sample.intT) (VMap None)
  = (Returns (Some (multierror_Error [err])), VMap (Some {["a" := VInt 1]})) ∧
  ∃ m', VMap (Some {["a" := VInt 1]}) = VMap (Some m') ∧ m' !! "a" = Some (VInt 1).
Proof.
  intros dict err.
  assert (unmarshalDictionary Sample.externals Sample.strict dict
            (TMap "" stringType Sample.intT) (VMap None)
          = (Returns (Some (multierror_Error [err])), VMap (Some {["a" := VInt 1]})))
    as Hcall by (vm_compute; reflexivity).
  split; [reflexivity|]. split; [exact Hcall|].
  destruct (proj2 (C10_failed_map_value_sets_no_entry Sample.externals Sample.strict
                     Sample.intT) dict "" stringType None _ _ eq_refl Hcall)
    as (m' & Hmap & _ & Hstays).
  exists m'. split; [exact Hmap|].
  apply (Hstays "a" [] (cfNumber true 1) (VInt 1) [("a", cfString "x")]).
  - reflexivity.
  - vm_compute. reflexivity.
  - intros sval' Hin x'.
    apply elem_of_cons in Hin as [Hin|Hin]; [|apply elem_of_nil in Hin; contradiction].
    injection Hin as ->. vm_compute. discriminate.
Defined.

(** * Further properties of the engine *)

(** ** Pointers, the unconstrained slot, dates and hooks *)

(** X1.  Decoding a node that is not nil through a pointer is decoding it
    into the target of the pointer, a fresh zero value when the pointer is
    nil; whatever the decode does (success, error, panic), the pointer is
    not nil afterwards. *)
Theorem X1_pointer_destination ext p pval elem val :
  pval ≠ cfNil →
  let target := match val with VPtr (Some target) => target | _ => zero elem end in
  unmarshal ext p pval (TPtr elem) val
  = ((unmarshal ext p pval elem target).1,
     VPtr (Some (unmarshal ext p pval elem target).2)).
Proof.
  intros Hnil target. rewrite !unmarshal_unfold.
  destruct pval; try congruence; simpl; fold target;
    destruct (resolve _ elem target); reflexivity.
Qed.

(** X2.  A known node decoded into the unconstrained slot always succeeds:
    the slot receives the materialized value, which is not nil, whatever the
    slot held, whatever hooks exist and whether lax mode is on or off. *)
Theorem X2_any_slot_never_fails ext p pval nm val :
  known pval = true →
  ∃ d, valueInterface pval = Some d ∧
       unmarshal ext p pval (TInterface nm 0) val = succeed (VInterface (Some d)).
Proof.
  intros Hknown.
  destruct (valueInterface pval) as [d|] eqn:Hd.
  - exists d. split; [reflexivity|]. rewrite unmarshal_unfold.
    destruct pval; try discriminate; simpl resolve; unfold dispatch; simpl isEmptyInterface;
      rewrite Hd; reflexivity.
  - destruct pval as [| | [] | [] | | | | | | |]; discriminate.
Qed.

(** X3.  A Date node decodes into the timestamp type only: for a destination
    that is not a pointer, not the unconstrained slot and has no custom
    decode hook, the decode succeeds exactly when the destination type is
    the timestamp type, storing the time as it is; any other destination
    gets the type-mismatch error and is left unchanged.  A textual decode
    hook of the destination is never called for a Date. *)
Theorem X3_date_into_timestamp_only ext p t typ val :
  Kind typ ≠ reflect.Ptr → isEmptyInterface typ = false →
  plistUnmarshaler ext typ = None →
  ((unmarshal ext p (cfDate t) typ val).1 = Returns None ↔ isTimeType typ = true) ∧
  (isTimeType typ = true → unmarshal ext p (cfDate t) typ val = succeed (VTime t)) ∧
  (isTimeType typ = false →
     unmarshal ext p (cfDate t) typ val
     = fail (incompatibleDecodeTypeError typ "date") val).
Proof.
  intros Hptr Hany Hplist.
  rewrite unmarshal_direct by (discriminate || assumption).
  unfold dispatch. rewrite Hany, Hplist.
  destruct (isTimeType typ); simpl; repeat split; intros; try reflexivity;
    try discriminate.
Qed.

(** X4.  Hooks come before structural dispatch.  A destination with a custom
    decode hook gets the result of the hook for every node that is not nil,
    Date and containers included.  Without it, a destination other than the
    timestamp type that has a textual decode hook accepts String nodes only:
    a String gives the result of the hook; any other node gives the
    type-mismatch error with the destination unchanged, even when the kinds
    would match structurally. *)
Theorem X4_hooks_precede_dispatch ext p pval typ val :
  pval ≠ cfNil → Kind typ ≠ reflect.Ptr → isEmptyInterface typ = false →
  (∀ receiver, plistUnmarshaler ext typ = Some receiver →
     unmarshal ext p pval typ val = receiver pval val) ∧
  (∀ receiver, plistUnmarshaler ext typ = None → isTimeType typ = false →
     textUnmarshaler ext typ = Some receiver →
     unmarshal ext p pval typ val =
     match pval with
     | cfString str => receiver str val
     | _ => fail (incompatibleDecodeTypeError typ (typeName pval)) val
     end).
Proof.
  intros Hnil Hptr Hany.
  rewrite unmarshal_direct by assumption. unfold dispatch. rewrite Hany. split.
  - intros receiver ->. reflexivity.
  - intros receiver -> -> ->. destruct pval; reflexivity.
Qed.

(** X5.  A String node and the timestamp type: the textual hook of the type
    is not consulted.  With lax mode off the decode gives the type-mismatch
    error; with lax mode on it parses the text with the property-list time
    layout, returns the parse error as an error (destination unchanged), and
    on success stores the parsed instant in UTC. *)
Theorem X5_string_into_timestamp ext p s val :
  plistUnmarshaler ext timeType = None →
  unmarshal ext p (cfString s) timeType val =
  (if lax p then
     match time_Parse ext s with
     | inl t => succeed (VTime {| instant := instant t; location := UTC |})
     | inr err => fail err val
     end
   else fail (incompatibleDecodeTypeError timeType "string") val).
Proof.
  intros Hplist.
  rewrite unmarshal_direct by (discriminate || (simpl; discriminate)).
  unfold dispatch. simpl isEmptyInterface. rewrite Hplist. simpl.
  destruct (lax p); [|reflexivity].
  unfold unmarshalLaxString. simpl. destruct (time_Parse ext s); reflexivity.
Qed.

Section Aggregation.

Lemma collecting_Append resultErr e :
  collecting resultErr → collecting (multierror_Append resultErr e).
Proof.
  intros [->|(e0 & errs & ->)]; right; simpl; eauto.
Qed.

Lemma collecting_aggregated resultErr : collecting resultErr → aggregated (Returns resultErr).
Proof.
  intros [->|(e & errs & ->)]; [right; left; reflexivity|right; right; eauto].
Qed.

Context (f : cfValue → rtype → rvalue → outcome).

Lemma arrayLoop_aggregated elem values n resultErr slots :
  collecting resultErr → aggregated (arrayLoop f elem values n resultErr slots).1.
Proof.
  revert n resultErr slots.
  induction values as [|sval rest IH]; intros n resultErr slots Hcollect; simpl.
  - apply collecting_aggregated. exact Hcollect.
  - destruct (slots !! n) as [slot|]; [|left; eauto].
    destruct (f sval elem slot) as [[[err|]|v] slot']; simpl.
    + apply IH. apply collecting_Append. exact Hcollect.
    + apply IH. exact Hcollect.
    + left. eauto.
Qed.

Lemma mapLoop_aggregated elem dict resultErr m :
  collecting resultErr → aggregated (mapLoop f elem dict resultErr m).1.
Proof.
  revert resultErr m.
  induction dict as [|[k sval] rest IH]; intros resultErr m Hcollect; simpl.
  - apply collecting_aggregated. exact Hcollect.
  - destruct (f sval elem (zero elem)) as [[[err|]|v] x]; simpl.
    + apply IH. apply collecting_Append. exact Hcollect.
    + apply IH. exact Hcollect.
    + left. eauto.
Qed.

Lemma structLoop_aggregated (entries : gmap string (rtype → rvalue → outcome))
    fields typ val resultErr :
  collecting resultErr → aggregated (structLoop entries fields typ val resultErr).1.
Proof.
  revert val resultErr.
  induction fields as [|finfo rest IH]; intros val resultErr Hcollect.
  - apply collecting_aggregated. exact Hcollect.
  - cbn [structLoop]. unfold outcome in *.
    destruct (entries !! name finfo) as [ent|]; [|apply IH; exact Hcollect].
    destruct (valueForWriting finfo typ val) as [[[ftyp canSet] fieldVal]|];
      [|left; simpl; eauto].
    destruct canSet; [|apply IH; apply collecting_Append; exact Hcollect].
    destruct (ent ftyp fieldVal) as [[[err|]|v] fieldVal']; simpl.
    + apply IH. apply collecting_Append. exact Hcollect.
    + apply IH. exact Hcollect.
    + left. eauto.
Qed.

End Aggregation.

(** X6.  How container decode reports.  A destination of the wrong shape (an
    Array node into something that is neither slice nor array, a Dictionary
    node into something that is neither struct nor map) gives the
    type-mismatch error and is left unchanged.  Once the shape is right and
    the fatal checks have passed (the array has room, the key type converts
    from string, the field metadata is available), failures of single
    elements, fields or values never come back as a bare error: the call
    returns nil or an aggregated collection that is not empty, unless it
    panics. *)
Theorem X6_container_decode_reports ext p typ val :
  (∀ values, Kind typ ≠ reflect.Slice → Kind typ ≠ reflect.Array →
     unmarshalArray ext p values typ val
     = fail (incompatibleDecodeTypeError typ "array") val) ∧
  (∀ dict, Kind typ ≠ reflect.Struct → Kind typ ≠ reflect.Map →
     unmarshalDictionary ext p dict typ val
     = fail (incompatibleDecodeTypeError typ "dictionary") val) ∧
  (∀ values, Kind typ = reflect.Slice →
     aggregated (unmarshalArray ext p values typ val).1) ∧
  (∀ values nm cap elem, typ = TArray nm cap elem → (length values ≤ cap)%nat →
     aggregated (unmarshalArray ext p values typ val).1) ∧
  (∀ dict nm key elem, typ = TMap nm key elem → ConvertibleTo_string key = true →
     aggregated (unmarshalDictionary ext p dict typ val).1) ∧
  (∀ dict tinfo, Kind typ = reflect.Struct → getTypeInfo ext typ = inl tinfo →
     aggregated (unmarshalDictionary ext p dict typ val).1).
Proof.
  repeat split.
  - intros values Hslice Harray. unfold unmarshalArray, unmarshalArrayWith.
    destruct typ; simpl in *; congruence.
  - intros dict Hstruct Hmap. unfold unmarshalDictionary, unmarshalDictionaryWith.
    destruct (Kind typ); congruence.
  - intros values Hkind. unfold unmarshalArray, unmarshalArrayWith.
    destruct typ as [nm k| | |nm elem| | | | |]; try discriminate;
      [destruct k; discriminate|].
    destruct val; try (left; simpl; eauto; fail). cbv zeta.
    pose proof (arrayLoop_aggregated (unmarshal ext p) elem values len None
                  (growSlice elem backing len
                     (int_add (Z.of_nat (length values)) (Z.of_nat len)))
                  ltac:(left; reflexivity)) as Hloop.
    destruct (arrayLoop _ _ _ _ _ _) as [r backing']. exact Hloop.
  - intros values nm cap elem -> Hroom. unfold unmarshalArray, unmarshalArrayWith.
    destruct (Z.ltb_spec (Z.of_nat cap) (Z.of_nat (length values))); [lia|].
    destruct val; try (left; simpl; eauto; fail).
    pose proof (arrayLoop_aggregated (unmarshal ext p) elem values 0 None elems
                  ltac:(left; reflexivity)) as Hloop.
    destruct (arrayLoop _ _ _ _ _ _) as [r elems']. exact Hloop.
  - intros dict nm key elem -> Hkey. unfold unmarshalDictionary, unmarshalDictionaryWith.
    simpl. destruct val; try (left; simpl; eauto; fail). rewrite Hkey. simpl.
    pose proof (mapLoop_aggregated (unmarshal ext p) elem dict None
                  (match m with Some m => m | None => ∅ end)
                  ltac:(left; reflexivity)) as Hloop.
    destruct (mapLoop _ _ _ _ _) as [r m']. exact Hloop.
  - intros dict tinfo Hkind Hinfo. unfold unmarshalDictionary, unmarshalDictionaryWith.
    rewrite Hkind, Hinfo. apply structLoop_aggregated. left. reflexivity.
Qed.

(** ** Integers *)

Lemma bitSize_cases k : bitSize k = 8 ∨ bitSize k = 16 ∨ bitSize k = 32 ∨ bitSize k = 64.
Proof. destruct k; simpl; auto. Qed.

Lemma wrap_signed_range bits x :
  0 < bits → - 2 ^ (bits - 1) ≤ wrap_signed bits x < 2 ^ (bits - 1).
Proof.
  intros Hbits. unfold wrap_signed.
  assert (2 ^ bits = 2 * 2 ^ (bits - 1)) as Hpow.
  { replace bits with (Z.succ (bits - 1)) at 1 by lia. apply Z.pow_succ_r. lia. }
  assert (0 < 2 ^ (bits - 1)) by (apply Z.pow_pos_nonneg; lia).
  pose proof (Z.mod_pos_bound (x + 2 ^ (bits - 1)) (2 ^ bits) ltac:(lia)). lia.
Qed.

Lemma wrap_signed_mod bits x :
  0 < bits → wrap_signed bits x mod 2 ^ bits = x mod 2 ^ bits.
Proof.
  intros Hbits. unfold wrap_signed.
  assert (0 < 2 ^ bits) by (apply Z.pow_pos_nonneg; lia).
  rewrite Zminus_mod, Zmod_mod, <- Zminus_mod. f_equal. lia.
Qed.

Lemma wrap_signed_exact bits x :
  0 < bits → - 2 ^ (bits - 1) ≤ x < 2 ^ (bits - 1) → wrap_signed bits x = x.
Proof.
  intros Hbits Hx. unfold wrap_signed.
  assert (2 ^ bits = 2 * 2 ^ (bits - 1)) as Hpow.
  { replace bits with (Z.succ (bits - 1)) at 1 by lia. apply Z.pow_succ_r. lia. }
  rewrite Z.mod_small; lia.
Qed.

Lemma mod_mod_pow x a b : 0 < a ≤ b → (x mod 2 ^ b) mod 2 ^ a = x mod 2 ^ a.
Proof.
  intros Hab. replace b with (a + (b - a)) by lia.
  rewrite Z.pow_add_r by lia.
  assert (0 < 2 ^ a) by (apply Z.pow_pos_nonneg; lia).
  assert (0 < 2 ^ (b - a)) by (apply Z.pow_pos_nonneg; lia).
  rewrite Z.rem_mul_r by lia.
  rewrite (Z.mul_comm (2 ^ a)), Z_mod_plus_full. apply Z.mod_mod. lia.
Qed.

Lemma integer_kind_direct typ :
  isIntKind (Kind typ) || isUintKind (Kind typ) = true →
  Kind typ ≠ reflect.Ptr ∧ isEmptyInterface typ = false.
Proof.
  intros Hkind. split.
  - intros E. rewrite E in Hkind. discriminate.
  - destruct typ; try reflexivity. discriminate.
Qed.

(** X7.  A Number decoded into an integer destination never fails on range:
    the magnitude is stored reduced modulo 2^width into the range of the
    destination (two's complement for the signed kinds), and it is stored as
    it is whenever it fits.  The signed flag of the node plays no role. *)
Theorem X7_number_into_integer ext p signed value typ val :
  noHook ext typ → 0 ≤ value < 2 ^ 64 →
  let bits := bitSize (Kind typ) in
  (isIntKind (Kind typ) = true →
     ∃ i, unmarshal ext p (cfNumber signed value) typ val = succeed (VInt i) ∧
          - 2 ^ (bits - 1) ≤ i < 2 ^ (bits - 1) ∧
          i mod 2 ^ bits = value mod 2 ^ bits ∧
          (value < 2 ^ (bits - 1) → i = value)) ∧
  (isUintKind (Kind typ) = true →
     ∃ u, unmarshal ext p (cfNumber signed value) typ val = succeed (VUint u) ∧
          0 ≤ u < 2 ^ bits ∧
          u = value mod 2 ^ bits ∧
          (value < 2 ^ bits → u = value)).
Proof.
  intros Hhook Hvalue bits.
  assert (0 < bits ≤ 64) as Hbits by (subst bits; destruct (bitSize_cases (Kind typ)); lia).
  assert (0 < 2 ^ bits) as Hpos by (apply Z.pow_pos_nonneg; lia).
  split; intros Hkind.
  - destruct (integer_kind_direct typ ltac:(rewrite Hkind; reflexivity)) as [Hptr Hany].
    rewrite unmarshal_direct by (discriminate || assumption).
    rewrite dispatch_scalar by (reflexivity || assumption). cbv zeta. rewrite Hkind.
    unfold SetInt, int64. fold bits. eexists. split; [reflexivity|].
    split; [apply wrap_signed_range; lia|]. split.
    + rewrite wrap_signed_mod by lia.
      rewrite <- (mod_mod_pow (wrap_signed 64 value) bits 64) by lia.
      rewrite wrap_signed_mod by lia. apply mod_mod_pow. lia.
    + intros Hfits.
      assert (2 ^ (bits - 1) ≤ 2 ^ 63) by (apply Z.pow_le_mono_r; lia).
      rewrite (wrap_signed_exact 64 value) by lia.
      apply wrap_signed_exact; lia.
  - destruct (integer_kind_direct typ ltac:(rewrite Hkind; apply orb_true_r)) as [Hptr Hany].
    rewrite unmarshal_direct by (discriminate || assumption).
    rewrite dispatch_scalar by (reflexivity || assumption). cbv zeta. rewrite Hkind.
    assert (isIntKind (Kind typ) = false) as -> by (destruct (Kind typ); try reflexivity; discriminate).
    unfold SetUint, wrap_unsigned. fold bits. eexists. split; [reflexivity|].
    split; [apply Z.mod_pos_bound; lia|]. split; [reflexivity|].
    intros Hfits. apply Z.mod_small. lia.
Qed.

(** X8.  Into the UID type or any integer destination, a UID node decodes
    exactly as a Number node of the same magnitude does. *)
Theorem X8_uid_decodes_as_number ext p signed u typ val :
  noHook ext typ → 0 ≤ u < 2 ^ 64 →
  isUIDType typ || isIntKind (Kind typ) || isUintKind (Kind typ) = true →
  unmarshal ext p (cfUID u) typ val = unmarshal ext p (cfNumber signed u) typ val.
Proof.
  intros Hhook Hu Hkind.
  assert (isIntKind (Kind typ) || isUintKind (Kind typ) = true) as Hint.
  { destruct typ; try discriminate; first [assumption|reflexivity]. }
  destruct (integer_kind_direct typ Hint) as [Hptr Hany].
  rewrite !unmarshal_direct by (discriminate || assumption).
  rewrite !dispatch_scalar by (reflexivity || assumption). cbv zeta.
  assert (uint64 u = u) as -> by (apply Z.mod_small; lia).
  destruct (isUIDType typ) eqn:Huid.
  - destruct typ; try discriminate. reflexivity.
  - destruct (isIntKind (Kind typ)), (isUintKind (Kind typ)); try reflexivity.
    discriminate.
Qed.

(** ** Scalar decode is all or nothing *)

(** X9.  Decoding a scalar node into a destination that is not a pointer,
    not the unconstrained slot and has no hook either succeeds or leaves the
    destination as it was: on an error or a panic, in lax mode as well,
    nothing has been written. *)
Theorem X9_scalar_failure_writes_nothing ext p pval typ val :
  scalar pval = true → Kind typ ≠ reflect.Ptr → isEmptyInterface typ = false →
  noHook ext typ →
  (unmarshal ext p pval typ val).1 ≠ Returns None →
  (unmarshal ext p pval typ val).2 = val.
Proof.
  intros Hscalar Hptr Hany Hhook.
  rewrite (unmarshal_direct ext p pval typ val (scalar_not_nil _ Hscalar) Hptr).
  rewrite (dispatch_scalar ext p pval typ val Hscalar Hany Hhook). cbv zeta.
  destruct pval; try discriminate.
  - unfold unmarshalLaxString.
    destruct (Kind typ), (lax p); simpl; try tauto; try reflexivity;
      repeat case_match; simpl; try tauto; reflexivity.
  - repeat case_match; simpl; tauto.
  - repeat case_match; simpl; tauto.
  - repeat case_match; simpl; tauto.
  - repeat case_match; simpl; tauto.
  - repeat case_match; simpl; tauto.
Qed.

(** ** Byte sequences *)


(** ** Capacity growth *)

Lemma growLoop_bounds cnt fuel ncap :
  0 ≤ ncap → cnt < 2 ^ 62 → (Z.to_nat (cnt - ncap) ≤ fuel)%nat →
  if ncap <? cnt
  then cnt ≤ growLoop fuel ncap cnt ≤ Z.max 4 (2 * (cnt - 1))
  else growLoop fuel ncap cnt = ncap.
Proof.
  revert ncap. induction fuel as [|fuel IH]; intros ncap Hncap Hcnt Hfuel.
  - destruct (Z.ltb_spec ncap cnt); [lia|reflexivity].
  - simpl. destruct (Z.ltb_spec ncap cnt) as [Hlt|Hge]; [|reflexivity].
    pose proof (growSliceCap_grows ncap ltac:(lia)) as Hgrow.
    specialize (IH (growSliceCap ncap) ltac:(lia) Hcnt ltac:(lia)).
    destruct (Z.ltb_spec (growSliceCap ncap) cnt); lia.
Qed.

Lemma growLoop_fuel_irrelevant cnt fuel1 fuel2 ncap :
  0 ≤ ncap → cnt < 2 ^ 62 →
  (Z.to_nat (cnt - ncap) ≤ fuel1)%nat → (Z.to_nat (cnt - ncap) ≤ fuel2)%nat →
  growLoop fuel1 ncap cnt = growLoop fuel2 ncap cnt.
Proof.
  revert fuel2 ncap. induction fuel1 as [|fuel1 IH]; intros fuel2 ncap Hncap Hcnt H1 H2.
  - destruct fuel2 as [|fuel2]; [reflexivity|]. simpl.
    destruct (Z.ltb_spec ncap cnt); [lia|reflexivity].
  - simpl. destruct (Z.ltb_spec ncap cnt) as [Hlt|Hge].
    + destruct fuel2 as [|fuel2]; [lia|]. simpl.
      destruct (Z.ltb_spec ncap cnt); [|lia].
      pose proof (growSliceCap_grows ncap ltac:(lia)).
      apply IH; lia.
    + destruct fuel2 as [|fuel2]; [reflexivity|]. simpl.
      destruct (Z.ltb_spec ncap cnt); [lia|reflexivity].
Qed.

(** X11.  Growth ends and does not overshoot.  A growth step strictly
    enlarges every capacity (below 2^62); starting below the needed count,
    the growth loop ends, within as many rounds as the count, at a capacity
    that holds the count and is at most twice the count less two (or 4, for
    small counts); more rounds of fuel do not change the result. *)
Theorem X11_growth_ends_within_twice_the_need ncap cnt fuel :
  0 ≤ ncap < cnt → cnt < 2 ^ 62 → (Z.to_nat cnt ≤ fuel)%nat →
  (∀ cap, 0 ≤ cap < 2 ^ 62 → cap < growSliceCap cap) ∧
  cnt ≤ growLoop (Z.to_nat cnt) ncap cnt ≤ Z.max 4 (2 * (cnt - 1)) ∧
  growLoop fuel ncap cnt = growLoop (Z.to_nat cnt) ncap cnt.
Proof.
  intros Hncap Hcnt Hfuel. split; [|split].
  - intros cap Hcap. apply growSliceCap_grows. exact Hcap.
  - pose proof (growLoop_bounds cnt (Z.to_nat cnt) ncap ltac:(lia) Hcnt ltac:(lia)) as Hb.
    destruct (Z.ltb_spec ncap cnt); [exact Hb|lia].
  - apply growLoop_fuel_irrelevant; lia.
Qed.

(** ** Sequence decode: what stays *)

Lemma arrayLoop_frame_high f elem values n resultErr slots j :
  (n + length values ≤ j)%nat →
  (arrayLoop f elem values n resultErr slots).2 !! j = slots !! j.
Proof.
  revert n resultErr slots.
  induction values as [|sval rest IH]; intros n resultErr slots Hj; simpl; [reflexivity|].
  simpl in Hj. destruct (slots !! n) as [slot|]; [|reflexivity].
  destruct (f sval elem slot) as [[[err|]|v] slot']; simpl;
    rewrite ?IH by lia; apply list_lookup_insert_ne; lia.
Qed.

(** X12.  An Array node decoded into a fixed-size array that has room: the
    array keeps its length, and the elements past the last source element
    are left as they were (not zeroed), whatever happens while the elements
    are decoded. *)
Theorem X12_fixed_array_tail_untouched ext p values nm cap elem elems :
  (length values ≤ cap)%nat →
  ∃ elems',
    (unmarshalArray ext p values (TArray nm cap elem) (VArray elems)).2 = VArray elems' ∧
    length elems' = length elems ∧
    ∀ j, (length values ≤ j)%nat → elems' !! j = elems !! j.
Proof.
  intros Hroom. unfold unmarshalArray, unmarshalArrayWith.
  destruct (Z.ltb_spec (Z.of_nat cap) (Z.of_nat (length values))); [lia|].
  destruct (arrayLoop (unmarshal ext p) elem values 0 None elems) as [r elems'] eqn:Hloop.
  exists elems'. split; [reflexivity|].
  replace elems' with (arrayLoop (unmarshal ext p) elem values 0 None elems).2
    by (rewrite Hloop; reflexivity).
  split.
  - apply arrayLoop_frame.
  - intros j Hj. apply arrayLoop_frame_high. simpl. exact Hj.
Qed.


(** ** Mapping decode into a record: what is recorded and what is written *)

Section RecordErrors.

Context (f : cfValue → rtype → rvalue → outcome) (dict : list (string * cfValue)).
Context (entries : gmap string (rtype → rvalue → outcome)).
Context (Hentries : ∀ k, entries !! k = f <$> lastValue k dict).
Context (typ : rtype).

Lemma structLoop_no_entries fields val resultErr :
  (∀ finfo, finfo ∈ fields → lastValue (name finfo) dict = None) →
  structLoop entries fields typ val resultErr = (Returns resultErr, val).
Proof using Hentries.
  induction fields as [|finfo rest IH]; intros Hnone; [reflexivity|].
  cbn [structLoop]. unfold outcome in *.
  rewrite Hentries, (Hnone finfo) by apply list_elem_of_here. simpl.
  apply IH. intros finfo' Hin. apply Hnone. apply list_elem_of_further. exact Hin.
Qed.

Lemma valueForWriting_setField finfo finfo' val x :
  idx finfo' ≠ idx finfo →
  valueForWriting finfo' typ (setField finfo val x) = valueForWriting finfo' typ val.
Proof.
  intros Hne. destruct typ, val; simpl; try reflexivity.
  rewrite list_lookup_insert_ne by congruence. reflexivity.
Qed.

Lemma fieldErrors_setField fields finfo val x :
  idx finfo ∉ idx <$> fields →
  fieldErrors f dict fields typ (setField finfo val x) = fieldErrors f dict fields typ val.
Proof.
  induction fields as [|finfo' rest IH]; intros Hfresh; [reflexivity|].
  rewrite fmap_cons, not_elem_of_cons in Hfresh. destruct Hfresh as [Hne Hrest].
  simpl. rewrite valueForWriting_setField by congruence. rewrite IH by exact Hrest.
  reflexivity.
Qed.

Lemma fieldAt_valueForWriting finfo val ftyp canSet fieldVal x :
  valueForWriting finfo typ val = Some (ftyp, canSet, fieldVal) →
  fieldAt (idx finfo) (setField finfo val x) = Some x.
Proof.
  unfold valueForWriting. destruct typ; try discriminate. destruct val; try discriminate.
  destruct (fields0 !! idx finfo) as [[[? ?] ?]|]; try discriminate.
  destruct (fields1 !! idx finfo) eqn:Hfield; try discriminate. intros _.
  simpl. apply list_lookup_insert_eq. eapply lookup_lt_Some. exact Hfield.
Qed.

(** When the descriptors lead to distinct fields and nothing panics, the
    field loop returns the recorded errors in descriptor order, has decoded
    every matched field that can be set, and has left every field without a
    descriptor alone. *)
Lemma structLoop_returns fields val resultErr :
  NoDup (idx <$> fields) → noFieldPanic f dict fields typ val →
  ∃ val',
    structLoop entries fields typ val resultErr
    = (Returns (foldl multierror_Append resultErr (fieldErrors f dict fields typ val)), val') ∧
    (∀ finfo ent ftyp fieldVal, finfo ∈ fields →
       lastValue (name finfo) dict = Some ent →
       valueForWriting finfo typ val = Some (ftyp, true, fieldVal) →
       fieldAt (idx finfo) val' = Some (f ent ftyp fieldVal).2) ∧
    (∀ j, j ∉ idx <$> fields → fieldAt j val' = fieldAt j val).
Proof using Hentries.
  revert val resultErr.
  induction fields as [|finfo rest IH]; intros val resultErr Hdistinct Hreturns.
  - exists val. split; [reflexivity|]. split; [|reflexivity].
    intros finfo ent ftyp fieldVal Hin. apply elem_of_nil in Hin. contradiction.
  - rewrite fmap_cons in Hdistinct. apply NoDup_cons in Hdistinct as [Hfresh Hdistinct].
    assert (∀ val1, (∀ finfo', finfo' ∈ rest →
                       valueForWriting finfo' typ val1 = valueForWriting finfo' typ val) →
            noFieldPanic f dict rest typ val1) as Hrest.
    { intros val1 Hsame finfo' ent Hin Hlast. rewrite (Hsame finfo' Hin).
      apply Hreturns; [apply list_elem_of_further; exact Hin|exact Hlast]. }
    assert (∀ finfo', finfo' ∈ rest → idx finfo' ≠ idx finfo) as Hother.
    { intros finfo' Hin Heq. apply Hfresh. rewrite <- Heq.
      apply list_elem_of_fmap. exists finfo'. auto. }
    cbn [structLoop fieldErrors]. unfold outcome in *. rewrite Hentries.
    destruct (lastValue (name finfo) dict) as [ent|] eqn:Hlast; simpl.
    + destruct (Hreturns finfo ent ltac:(apply list_elem_of_here) Hlast)
        as (ftyp & canSet & fieldVal & Hfield & Hdecode).
      rewrite Hfield. destruct canSet.
      * destruct (Hdecode eq_refl) as (r & x & Hf). rewrite Hf. simpl.
        set (val1 := setField finfo val x).
        assert (∀ finfo', finfo' ∈ rest →
                  valueForWriting finfo' typ val1 = valueForWriting finfo' typ val) as Hsame
          by (intros; apply valueForWriting_setField; auto).
        destruct (IH val1 (match r with
                           | Some err => multierror_Append resultErr (errField (name finfo) err)
                           | None => resultErr
                           end) Hdistinct (Hrest val1 Hsame))
          as (val' & Hloop & Hdecoded & Hframe).
        unfold val1 in Hloop. rewrite fieldErrors_setField in Hloop by exact Hfresh.
        exists val'. split; [destruct r; exact Hloop|]. split.
        -- intros finfo' ent' ftyp' fieldVal' Hin Hlast' Hfield'.
           apply elem_of_cons in Hin as [->|Hin].
           ++ rewrite Hlast in Hlast'. injection Hlast' as <-.
              rewrite Hfield in Hfield'. injection Hfield' as <- <-.
              rewrite Hframe by exact Hfresh. rewrite Hf. simpl.
              eapply fieldAt_valueForWriting. exact Hfield.
           ++ apply (Hdecoded finfo' ent' ftyp' fieldVal' Hin Hlast').
              rewrite Hsame by exact Hin. exact Hfield'.
        -- intros j Hj. simpl in Hj. apply not_elem_of_cons in Hj as [Hne Hj].
           rewrite Hframe by exact Hj. apply fieldAt_setField. congruence.
      * destruct (IH val (multierror_Append resultErr (errFieldNotSettable (name finfo)))
                    Hdistinct (Hrest val ltac:(reflexivity)))
          as (val' & Hloop & Hdecoded & Hframe).
        exists val'. split; [exact Hloop|]. split.
        -- intros finfo' ent' ftyp' fieldVal' Hin Hlast' Hfield'.
           apply elem_of_cons in Hin as [->|Hin]; [congruence|]. eauto.
        -- intros j Hj. simpl in Hj. apply not_elem_of_cons in Hj as [Hne Hj].
           apply Hframe. exact Hj.
    + destruct (IH val resultErr Hdistinct (Hrest val ltac:(reflexivity)))
        as (val' & Hloop & Hdecoded & Hframe).
      exists val'. split; [exact Hloop|]. split.
      * intros finfo' ent' ftyp' fieldVal' Hin Hlast' Hfield'.
        apply elem_of_cons in Hin as [->|Hin]; [congruence|]. eauto.
      * intros j Hj. simpl in Hj. apply not_elem_of_cons in Hj as [Hne Hj].
        apply Hframe. exact Hj.
Qed.

End RecordErrors.

(** X14.  Mapping decode into a record with nothing to do: when the field
    metadata cannot be obtained, its error is returned as it is and the
    record is not touched; when no field descriptor is named by a key of the
    dictionary (an empty dictionary in particular), the call returns nil and
    the record is unchanged. *)
Theorem X14_record_nothing_to_decode ext p dict typ val :
  Kind typ = reflect.Struct →
  (∀ err, getTypeInfo ext typ = inr err →
     unmarshalDictionary ext p dict typ val = fail err val) ∧
  (∀ tinfo, getTypeInfo ext typ = inl tinfo →
     (∀ finfo, finfo ∈ fields tinfo → name finfo ∉ dict.*1) →
     unmarshalDictionary ext p dict typ val = succeed val).
Proof.
  intros Hkind. unfold unmarshalDictionary, unmarshalDictionaryWith. rewrite Hkind. split.
  - intros err ->. reflexivity.
  - intros tinfo -> Hnone.
    apply (structLoop_no_entries (unmarshal ext p) dict).
    + apply entries_lookup.
    + intros finfo Hin. apply lastValue_None. apply Hnone. exact Hin.
Qed.

(** X15.  Mapping decode into a record contains field failures.  When the
    descriptors lead to distinct fields of the record and no field decode
    panics, the call returns exactly these errors, in descriptor order: for
    each descriptor named by a key, "not settable" when the field cannot be
    set, else the error of decoding the value of the last pair of that key
    into the field, tagged with the name.  Every matched field that can be
    set holds the result of its own decode, whether other fields failed or
    not. *)
Theorem X15_record_field_errors ext p dict typ val tinfo :
  Kind typ = reflect.Struct → getTypeInfo ext typ = inl tinfo →
  NoDup (idx <$> fields tinfo) →
  noFieldPanic (unmarshal ext p) dict (fields tinfo) typ val →
  let result := unmarshalDictionary ext p dict typ val in
  result.1 = Returns (aggregate (fieldErrors (unmarshal ext p) dict (fields tinfo) typ val)) ∧
  (∀ finfo ent ftyp fieldVal, finfo ∈ fields tinfo →
     lastValue (name finfo) dict = Some ent →
     valueForWriting finfo typ val = Some (ftyp, true, fieldVal) →
     fieldAt (idx finfo) result.2 = Some (unmarshal ext p ent ftyp fieldVal).2).
Proof.
  intros Hkind Hinfo Hdistinct Hreturns result. subst result.
  unfold unmarshalDictionary, unmarshalDictionaryWith. rewrite Hkind, Hinfo.
  destruct (structLoop_returns (unmarshal ext p) dict _ (entries_lookup ext p dict)
              typ (fields tinfo) val None Hdistinct Hreturns)
    as (val' & Hloop & Hdecoded & _).
  rewrite aggregate_foldl in Hloop. rewrite Hloop. split; [reflexivity|exact Hdecoded].
Qed.

(** ** Mapping decode into a map: what is recorded and what stays *)

Section MapErrors.

Context (f : cfValue → rtype → rvalue → outcome) (elem : rtype).

(** The loop writes only under the keys of the dictionary. *)
Lemma mapLoop_frame dict resultErr m k :
  k ∉ dict.*1 → (mapLoop f elem dict resultErr m).2 !! k = m !! k.
Proof.
  revert resultErr m. induction dict as [|[k' sval] rest IH]; intros resultErr m Hk;
    [reflexivity|].
  simpl in Hk. apply not_elem_of_cons in Hk as [Hne Hk]. simpl.
  destruct (f sval elem (zero elem)) as [[[err|]|v] x]; simpl; rewrite ?IH by exact Hk;
    try reflexivity.
  apply lookup_insert_ne. congruence.
Qed.

Lemma mapLoop_returns dict resultErr m :
  noMapPanic f elem dict →
  (mapLoop f elem dict resultErr m).1
  = Returns (foldl multierror_Append resultErr (mapErrors f elem dict)).
Proof.
  revert resultErr m. induction dict as [|[k sval] rest IH]; intros resultErr m Hreturns;
    [reflexivity|].
  assert (noMapPanic f elem rest) as Hrest
    by (intros k' sval' Hin; apply (Hreturns k' sval'); apply list_elem_of_further; exact Hin).
  destruct (Hreturns k sval ltac:(apply list_elem_of_here)) as (r & x & Hf).
  simpl. rewrite Hf. simpl. destruct r as [err|]; simpl; apply IH; exact Hrest.
Qed.

Lemma mapErrors_elem_of dict e :
  e ∈ mapErrors f elem dict ↔
  ∃ k sval err, (k, sval) ∈ dict ∧ (f sval elem (zero elem)).1 = Returns (Some err) ∧
                e = errMapKey k err.
Proof.
  induction dict as [|[k sval] rest IH]; simpl.
  - split; [intros He; apply elem_of_nil in He; contradiction|].
    intros (k & sval & err & Hin & _). apply elem_of_nil in Hin. contradiction.
  - rewrite elem_of_app, IH. split.
    + intros [He|(k' & sval' & err & Hin & Hres & ->)].
      * destruct (f sval elem (zero elem)).1 as [[err|]|v] eqn:Hres;
          try (apply elem_of_nil in He; contradiction).
        apply list_elem_of_singleton in He. subst e.
        exists k, sval, err. split; [apply list_elem_of_here|auto].
      * exists k', sval', err. split; [apply list_elem_of_further; exact Hin|auto].
    + intros (k' & sval' & err & Hin & Hres & ->).
      apply elem_of_cons in Hin as [Heq|Hin].
      * injection Heq as -> ->. left. rewrite Hres. apply list_elem_of_singleton. reflexivity.
      * right. exists k', sval', err. auto.
Qed.

End MapErrors.

(** X16.  Mapping decode into a map merges into the destination: whatever
    the call does, the destination is a map that is not nil afterwards, and
    every entry under a key that is not in the dictionary is as it was. *)
Theorem X16_map_keeps_other_entries ext p dict nm key elem m :
  ConvertibleTo_string key = true →
  ∃ m',
    (unmarshalDictionary ext p dict (TMap nm key elem) (VMap m)).2 = VMap (Some m') ∧
    ∀ k, k ∉ dict.*1 → m' !! k = default ∅ m !! k.
Proof.
  intros Hkey. rewrite unmarshalDictionary_map by exact Hkey. cbv zeta.
  eexists. split; [reflexivity|]. intros k Hk. apply mapLoop_frame. exact Hk.
Qed.

(** X17.  Mapping decode into a map contains value failures.  When no value
    decode panics, the call returns exactly the errors of the pairs whose
    value fails to decode, each tagged with its key, in document order (nil
    when there is none). *)
Theorem X17_map_value_errors ext p dict nm key elem m :
  ConvertibleTo_string key = true →
  noMapPanic (unmarshal ext p) elem dict →
  (unmarshalDictionary ext p dict (TMap nm key elem) (VMap m)).1
  = Returns (aggregate (mapErrors (unmarshal ext p) elem dict)) ∧
  (∀ e, e ∈ mapErrors (unmarshal ext p) elem dict ↔
     ∃ k sval err, (k, sval) ∈ dict ∧
       (unmarshal ext p sval elem (zero elem)).1 = Returns (Some err) ∧
       e = errMapKey k err).
Proof.
  intros Hkey Hreturns. rewrite unmarshalDictionary_map by exact Hkey. cbv zeta. split.
  - simpl. rewrite mapLoop_returns by exact Hreturns. rewrite aggregate_foldl. reflexivity.
  - intros e. apply mapErrors_elem_of.
Qed.

(** ** Lax mode *)

(** Induction on a document tree, with the property available for every
    element of an array and every value of a dictionary. *)
Lemma cfValue_tree_ind (P : cfValue → Prop) :
  P cfNil → (∀ s, P (cfString s)) → (∀ signed value, P (cfNumber signed value)) →
  (∀ wide value, P (cfReal wide value)) → (∀ b, P (cfBoolean b)) →
  (∀ b, P (cfData b)) → (∀ t, P (cfDate t)) → (∀ u, P (cfUID u)) →
  (∀ values, Forall P values → P (cfArray values)) →
  (∀ dict, Forall (fun e => P e.2) dict → P (cfDictionary dict)) →
  (∀ goType, P (cfOther goType)) →
  ∀ pval, P pval.
Proof.
  intros Hnil Hstring Hnumber Hreal Hbool Hdata Hdate Huid Harray Hdict Hother.
  fix IH 1.
  intros [|s|signed value|wide value|b|b|t|u|values|dict|goType];
    [exact Hnil|exact (Hstring s)|exact (Hnumber signed value)|exact (Hreal wide value)
    |exact (Hbool b)|exact (Hdata b)|exact (Hdate t)|exact (Huid u)| | |exact (Hother goType)].
  - apply Harray.
    exact ((fix all (l : list cfValue) : Forall P l :=
              match l with
              | [] => List.Forall_nil P
              | x :: l' => @List.Forall_cons _ P x l' (IH x) (all l')
              end) values).
  - apply Hdict.
    exact ((fix all (l : list (string * cfValue)) : Forall (fun e => P e.2) l :=
              match l with
              | [] => List.Forall_nil _
              | e :: l' => @List.Forall_cons _ (fun e => P e.2) e l' (IH e.2) (all l')
              end) dict).
Qed.

Section Extensionality.

Context (f g : cfValue → rtype → rvalue → outcome).

Lemma resolve_ext (k1 k2 : rtype → rvalue → outcome) typ val :
  (∀ typ val, k1 typ val = k2 typ val) → resolve k1 typ val = resolve k2 typ val.
Proof.
  intros Hk. revert val. induction typ; intros val; simpl; try apply Hk.
  rewrite IHtyp. reflexivity.
Qed.

Lemma arrayLoop_ext elem values n resultErr slots :
  Forall (fun sval => ∀ typ val, f sval typ val = g sval typ val) values →
  arrayLoop f elem values n resultErr slots = arrayLoop g elem values n resultErr slots.
Proof.
  intros Hagree. revert n resultErr slots.
  induction Hagree as [|sval rest Hsval _ IH]; intros n resultErr slots; [reflexivity|].
  simpl. destruct (slots !! n) as [slot|]; [|reflexivity].
  rewrite Hsval. destruct (g sval elem slot) as [[[err|]|v] slot']; try apply IH.
  reflexivity.
Qed.

Lemma mapLoop_ext elem dict resultErr m :
  Forall (fun e => ∀ typ val, f e.2 typ val = g e.2 typ val) dict →
  mapLoop f elem dict resultErr m = mapLoop g elem dict resultErr m.
Proof.
  intros Hagree. revert resultErr m.
  induction Hagree as [|[k sval] rest Hsval _ IH]; intros resultErr m; [reflexivity|].
  simpl in *. rewrite Hsval.
  destruct (g sval elem (zero elem)) as [[[err|]|v] x]; try apply IH. reflexivity.
Qed.

Lemma lastValue_elem_of k dict v : lastValue k dict = Some v → (k, v) ∈ dict.
Proof.
  induction dict as [|[k' v'] rest IH]; simpl; [discriminate|].
  destruct (lastValue k rest) as [v0|].
  - intros [= ->]. apply list_elem_of_further. apply IH. reflexivity.
  - destruct (decide (k' = k)) as [->|]; [|discriminate].
    intros [= ->]. apply list_elem_of_here.
Qed.

(** The field loop depends on the decode steps of the lookup only through
    their results. *)
Lemma structLoop_ext_pointwise (entries1 entries2 : gmap string (rtype → rvalue → outcome))
    fields typ val resultErr :
  (∀ k, match entries1 !! k, entries2 !! k with
        | Some a, Some b => ∀ typ val, a typ val = b typ val
        | None, None => True
        | _, _ => False
        end) →
  structLoop entries1 fields typ val resultErr
  = structLoop entries2 fields typ val resultErr.
Proof.
  intros Hagree. revert val resultErr.
  induction fields as [|finfo rest IH]; intros val resultErr; [reflexivity|].
  cbn [structLoop]. unfold outcome in *.
  pose proof (Hagree (name finfo)) as Hname.
  destruct (entries1 !! name finfo) as [a|], (entries2 !! name finfo) as [b|];
    try contradiction; [|apply IH].
  destruct (valueForWriting finfo typ val) as [[[ftyp canSet] fieldVal]|]; [|reflexivity].
  destruct canSet; [|apply IH].
  rewrite Hname. destruct (b ftyp fieldVal) as [[[err|]|v] fieldVal']; try apply IH.
  reflexivity.
Qed.

End Extensionality.

(** X18.  Lax mode matters for String nodes only: when no destination type
    has a custom decode hook (a hook may consult the mode itself), a
    document subtree without any String node decodes the same, into any
    destination, with lax mode on and off. *)
Theorem X18_lax_only_matters_for_strings ext p1 p2 pval :
  (∀ typ, plistUnmarshaler ext typ = None) → stringFree pval = true →
  ∀ typ val, unmarshal ext p1 pval typ val = unmarshal ext p2 pval typ val.
Proof.
  intros Hplist. induction pval using cfValue_tree_ind; intros Hfree typ val;
    try discriminate; rewrite !unmarshal_unfold; try reflexivity;
    apply resolve_ext; clear typ val; intros typ val; unfold dispatch;
    rewrite Hplist; try reflexivity.
  - destruct (isEmptyInterface typ); [reflexivity|].
    destruct (if isTimeType typ then None else textUnmarshaler ext typ); [reflexivity|].
    unfold unmarshalArrayWith.
    assert (Forall (fun sval => ∀ typ val,
              unmarshal ext p1 sval typ val = unmarshal ext p2 sval typ val) values) as Hagree.
    { simpl in Hfree. rewrite forallb_forall in Hfree.
      apply Forall_forall. intros sval Hin.
      eapply Forall_forall in H; [|exact Hin]. apply H.
      apply Hfree. apply list_elem_of_In. exact Hin. }
    destruct typ; try reflexivity.
    + destruct val; try reflexivity. rewrite (arrayLoop_ext _ _ _ _ _ _ _ Hagree). reflexivity.
    + destruct (_ <? _); [reflexivity|]. destruct val; try reflexivity.
      rewrite (arrayLoop_ext _ _ _ _ _ _ _ Hagree). reflexivity.
  - destruct (isEmptyInterface typ); [reflexivity|].
    destruct (if isTimeType typ then None else textUnmarshaler ext typ); [reflexivity|].
    unfold unmarshalDictionaryWith.
    assert (Forall (fun e : string * cfValue => ∀ typ val,
              unmarshal ext p1 e.2 typ val = unmarshal ext p2 e.2 typ val) dict) as Hagree.
    { simpl in Hfree. rewrite forallb_forall in Hfree.
      apply Forall_forall. intros e Hin.
      eapply Forall_forall in H; [|exact Hin]. apply H.
      apply Hfree. apply list_elem_of_In. exact Hin. }
    destruct (Kind typ); try reflexivity.
    + destruct typ; try reflexivity. destruct val; try reflexivity.
      destruct (negb _); [reflexivity|].
      rewrite (mapLoop_ext _ _ _ _ _ _ Hagree). reflexivity.
    + destruct (getTypeInfo ext typ); [|reflexivity].
      apply structLoop_ext_pointwise. intros k. rewrite !entries_lookup.
      destruct (lastValue k dict) as [v|] eqn:Hlast; simpl; [|exact I].
      apply lastValue_elem_of in Hlast. eapply Forall_forall in Hagree; [|exact Hlast].
      exact Hagree.
Qed.

(** ** The materializer and typed decode *)





(** ** Decoding keeps the destination well typed *)

(** Induction on a type, with the property available for the type of every
    field of a struct. *)
Lemma rtype_tree_ind (P : rtype → Prop) :
  (∀ nm k, P (TBasic nm k)) → P TUID → P TTime →
  (∀ nm elem, P elem → P (TSlice nm elem)) →
  (∀ nm len elem, P elem → P (TArray nm len elem)) →
  (∀ nm key elem, P key → P elem → P (TMap nm key elem)) →
  (∀ elem, P elem → P (TPtr elem)) →
  (∀ nm ftypes, Forall (fun f => P f.2) ftypes → P (TStruct nm ftypes)) →
  (∀ nm numMethod, P (TInterface nm numMethod)) →
  ∀ typ, P typ.
Proof.
  intros Hbasic Huid Htime Hslice Harray Hmap Hptr Hstruct Hiface.
  fix IH 1.
  intros [nm k| | |nm elem|nm len elem|nm key elem|elem|nm ftypes|nm numMethod];
    [exact (Hbasic nm k)|exact Huid|exact Htime|exact (Hslice nm elem (IH elem))
    |exact (Harray nm len elem (IH elem))|exact (Hmap nm key elem (IH key) (IH elem))
    |exact (Hptr elem (IH elem))| |exact (Hiface nm numMethod)].
  apply Hstruct.
  exact ((fix all (l : list (string * bool * rtype)) : Forall (fun f => P f.2) l :=
            match l with
            | [] => List.Forall_nil _
            | f :: l' => @List.Forall_cons _ (fun f => P f.2) f l' (IH f.2) (all l')
            end) ftypes).
Qed.

Lemma zero_hasType typ : hasType typ (zero typ).
Proof.
  induction typ as [nm k| | |nm elem IH|nm len elem IH|nm key elem _ IH|elem IH
                   |nm ftypes IH|nm numMethod] using rtype_tree_ind; simpl; auto.
  - destruct k; simpl; auto; split; try reflexivity; lia.
  - lia.
  - split; [apply length_replicate|]. apply Forall_replicate. exact IH.
  - intros m' Hm. discriminate.
  - intros x Hx. discriminate.
  - induction IH as [|f rest Hf _ IHrest]; simpl; auto.
Qed.

Section TypePreservation.

Context (P : rtype → rvalue → Prop).

Lemma fieldsHaveTypes_lookup ftypes fvals i f fval :
  fieldsHaveTypes P ftypes fvals → ftypes !! i = Some f → fvals !! i = Some fval →
  P f.2 fval.
Proof.
  revert fvals i. induction ftypes as [|f0 ftypes IH]; intros [|fval0 fvals] i Htyped Hf Hval;
    try discriminate; try contradiction.
  destruct Htyped as [Hhead Htail]. destruct i as [|i]; simpl in *.
  - injection Hf as <-. injection Hval as <-. exact Hhead.
  - eapply IH; eauto.
Qed.

Lemma fieldsHaveTypes_insert ftypes fvals i f fval :
  fieldsHaveTypes P ftypes fvals → ftypes !! i = Some f → P f.2 fval →
  fieldsHaveTypes P ftypes (<[i := fval]> fvals).
Proof.
  revert fvals i. induction ftypes as [|f0 ftypes IH]; intros [|fval0 fvals] i Htyped Hf Hval;
    try discriminate; try contradiction.
  destruct Htyped as [Hhead Htail]. destruct i as [|i]; simpl in *.
  - injection Hf as <-. split; assumption.
  - split; [exact Hhead|]. eapply IH; eauto.
Qed.

End TypePreservation.

Lemma bitSize_pos k : 0 < bitSize k.
Proof. destruct k; simpl; lia. Qed.

Lemma SetInt_hasType typ x : isIntKind (Kind typ) = true → hasType typ (SetInt typ x).
Proof.
  intros Hkind. destruct typ; try discriminate. simpl in *.
  split; [exact Hkind|]. apply wrap_signed_range. apply bitSize_pos.
Qed.

Lemma SetUint_hasType typ x : isUintKind (Kind typ) = true → hasType typ (SetUint typ x).
Proof.
  intros Hkind. unfold SetUint, wrap_unsigned.
  destruct typ; try discriminate; simpl in *.
  - split; [exact Hkind|]. apply Z.mod_pos_bound. apply Z.pow_pos_nonneg; [lia|].
    pose proof (bitSize_pos (basicKind_Kind k)). lia.
  - apply Z.mod_pos_bound. lia.
Qed.

Lemma SetFloat_hasType typ x : isFloatKind (Kind typ) = true → hasType typ (SetFloat typ x).
Proof.
  intros Hkind. unfold SetFloat. destruct typ; try discriminate. simpl in *.
  destruct (basicKind_Kind k); try discriminate; exact Hkind.
Qed.

Lemma byteValue_hasType nm k b :
  basicKind_Kind k = reflect.Uint8 → hasType (TBasic nm k) (byteValue b).
Proof.
  intros Hkind. simpl. rewrite Hkind. split; [reflexivity|]. simpl.
  destruct b; simpl; lia.
Qed.

Lemma unmarshalLaxString_hasType ext s typ val :
  hasType typ val → hasType typ (unmarshalLaxString ext s typ val).2.
Proof.
  intros Htyped. unfold unmarshalLaxString.
  destruct (Kind typ) eqn:Hkind; simpl; try exact Htyped;
    repeat case_match; simpl; try exact Htyped;
    try (apply SetInt_hasType; rewrite Hkind; reflexivity);
    try (apply SetUint_hasType; rewrite Hkind; reflexivity);
    try (apply SetFloat_hasType; rewrite Hkind; reflexivity).
  - destruct typ; try discriminate. simpl in *. rewrite Hkind. reflexivity.
  - destruct typ; try discriminate. exact I.
Qed.

Lemma resolve_hasType (k : rtype → rvalue → outcome) :
  (∀ typ val, hasType typ val → hasType typ (k typ val).2) →
  ∀ typ val, hasType typ val → hasType typ (resolve k typ val).2.
Proof.
  intros Hk typ. induction typ; intros val Htyped; try (apply Hk; exact Htyped).
  simpl. destruct val as [| | | | | | | | |target| | |]; try contradiction.
  simpl in Htyped.
  assert (hasType typ (match target with Some x => x | None => zero typ end)) as Htarget.
  { destruct target; [apply Htyped; reflexivity|apply zero_hasType]. }
  specialize (IHtyp _ Htarget).
  destruct (resolve k typ _) as [r target']. simpl in *.
  intros x [= <-]. exact IHtyp.
Qed.

Section LoopsPreserveTypes.

Context (f : cfValue → rtype → rvalue → outcome).

Lemma arrayLoop_hasType elem values n resultErr slots :
  Forall (fun sval => ∀ typ val, hasType typ val → hasType typ (f sval typ val).2) values →
  Forall (hasType elem) slots →
  Forall (hasType elem) (arrayLoop f elem values n resultErr slots).2.
Proof.
  intros Hvalues. revert n resultErr slots.
  induction Hvalues as [|sval rest Hsval _ IH]; intros n resultErr slots Hslots;
    [exact Hslots|].
  simpl. destruct (slots !! n) as [slot|] eqn:Hslot; [|exact Hslots].
  assert (hasType elem (f sval elem slot).2) as Hnew.
  { apply Hsval. eapply Forall_lookup_1; eauto. }
  destruct (f sval elem slot) as [[[err|]|v] slot']; simpl in *;
    try apply IH; apply Forall_insert; assumption.
Qed.

Lemma growSlice_hasType elem backing len cnt :
  Forall (hasType elem) backing → Forall (hasType elem) (growSlice elem backing len cnt).
Proof.
  intros Hbacking. unfold growSlice. destruct (_ <? cnt); [|exact Hbacking].
  apply Forall_app. split; [apply Forall_take; exact Hbacking|].
  apply Forall_replicate. apply zero_hasType.
Qed.

Lemma mapLoop_hasType elem dict resultErr m :
  Forall (fun e => ∀ typ val, hasType typ val → hasType typ (f e.2 typ val).2) dict →
  map_Forall (fun _ => hasType elem) m →
  map_Forall (fun _ => hasType elem) (mapLoop f elem dict resultErr m).2.
Proof.
  intros Hdict. revert resultErr m.
  induction Hdict as [|[k sval] rest Hsval _ IH]; intros resultErr m Hm; [exact Hm|].
  simpl in *.
  pose proof (Hsval elem (zero elem) (zero_hasType elem)) as Hnew.
  destruct (f sval elem (zero elem)) as [[[err|]|v] x]; simpl in *;
    try apply IH; try exact Hm.
  apply map_Forall_insert_2; assumption.
Qed.

End LoopsPreserveTypes.

Lemma valueForWriting_hasType finfo typ val ftyp canSet fieldVal :
  hasType typ val → valueForWriting finfo typ val = Some (ftyp, canSet, fieldVal) →
  hasType ftyp fieldVal ∧ ∀ x, hasType ftyp x → hasType typ (setField finfo val x).
Proof.
  unfold valueForWriting. intros Htyped Hfield.
  destruct typ as [| | | | | | |nm ftypes|]; try discriminate.
  destruct val as [| | | | | | | | | |fvals| |]; try discriminate.
  destruct (ftypes !! idx finfo) as [[[fname exported] ftyp']|] eqn:Hftype; try discriminate.
  destruct (fvals !! idx finfo) as [fval|] eqn:Hfval; try discriminate.
  injection Hfield as <- <- <-. simpl in Htyped. split.
  - apply (fieldsHaveTypes_lookup hasType _ _ _ _ _ Htyped Hftype Hfval).
  - intros x Hx. simpl.
    apply (fieldsHaveTypes_insert hasType _ _ _ _ _ Htyped Hftype Hx).
Qed.

Lemma structLoop_hasType (entries : gmap string (rtype → rvalue → outcome)) fields typ :
  (∀ k ent, entries !! k = Some ent →
     ∀ typ val, hasType typ val → hasType typ (ent typ val).2) →
  ∀ val resultErr, hasType typ val →
    hasType typ (structLoop entries fields typ val resultErr).2.
Proof.
  intros Hentries. induction fields as [|finfo rest IH]; intros val resultErr Htyped;
    [exact Htyped|].
  cbn [structLoop]. unfold outcome in *.
  destruct (entries !! name finfo) as [ent|] eqn:Hent; [|apply IH; exact Htyped].
  destruct (valueForWriting finfo typ val) as [[[ftyp canSet] fieldVal]|] eqn:Hfield;
    [|exact Htyped].
  destruct (valueForWriting_hasType _ _ _ _ _ _ Htyped Hfield) as [Hfval Hset].
  destruct canSet; [|apply IH; exact Htyped].
  pose proof (Hentries _ _ Hent ftyp fieldVal Hfval) as Hnew.
  destruct (ent ftyp fieldVal) as [[[err|]|v] fieldVal']; simpl in *;
    try apply IH; apply Hset; exact Hnew.
Qed.

Lemma unmarshalArrayWith_hasType f values typ val :
  Forall (fun sval => ∀ typ val, hasType typ val → hasType typ (f sval typ val).2) values →
  hasType typ val → hasType typ (unmarshalArrayWith f values typ val).2.
Proof.
  intros Hvalues Htyped. unfold unmarshalArrayWith.
  destruct typ as [| | |nm elem|nm len elem| | | |]; try exact Htyped.
  - destruct val as [| | | | | |backing n| | | | | |]; try contradiction. simpl in Htyped.
    pose proof (arrayLoop_hasType f elem values n None _ Hvalues
                  (growSlice_hasType elem backing n
                     (int_add (Z.of_nat (length values)) (Z.of_nat n)) Htyped)) as Hloop.
    cbv zeta. destruct (arrayLoop f elem values n None _) as [r backing']. exact Hloop.
  - destruct (_ <? _); [exact Htyped|].
    destruct val as [| | | | | | |elems| | | | |]; try contradiction.
    destruct Htyped as [Hlen Helems].
    pose proof (arrayLoop_hasType f elem values 0 None elems Hvalues Helems) as Hloop.
    pose proof (proj1 (arrayLoop_frame f elem values 0 None elems)) as Hlength.
    destruct (arrayLoop f elem values 0 None elems) as [r elems']. simpl in *.
    split; [congruence|exact Hloop].
Qed.

Lemma unmarshalDictionaryWith_hasType ext f dict typ val :
  Forall (fun e => ∀ typ val, hasType typ val → hasType typ (f e.2 typ val).2) dict →
  hasType typ val → hasType typ (unmarshalDictionaryWith ext f dict typ val).2.
Proof.
  intros Hdict Htyped. unfold unmarshalDictionaryWith.
  destruct (Kind typ) eqn:Hkind; try exact Htyped.
  - destruct typ as [| | | | |nm key elem| | |]; try exact Htyped.
    destruct val as [| | | | | | | |m| | | |]; try exact Htyped.
    destruct (negb _); simpl.
    + intros m' [= <-]. destruct m as [m|]; [apply Htyped; reflexivity|].
      apply map_Forall_empty.
    + pose proof (mapLoop_hasType f elem dict None (default ∅ m) Hdict) as Hloop.
      destruct m as [m|]; simpl in *;
        (destruct (mapLoop f elem dict None _) as [r m']; simpl in *;
         intros m'' [= <-]; apply Hloop;
         first [apply Htyped; reflexivity|apply map_Forall_empty]).
  - destruct (getTypeInfo ext typ) as [tinfo|err]; [|exact Htyped].
    apply structLoop_hasType; [|exact Htyped].
    intros k ent Hent.
    rewrite (foldl_insert_lookup f), lookup_empty in Hent.
    destruct (lastValue k dict) as [v|] eqn:Hlast; [|discriminate].
    injection Hent as <-. apply lastValue_elem_of in Hlast.
    eapply Forall_forall in Hdict; [|exact Hlast]. exact Hdict.
Qed.

Lemma dispatch_hasType ext p f pval :
  hooksPreserveTypes ext →
  match pval with
  | cfArray values =>
      Forall (fun sval => ∀ typ val, hasType typ val → hasType typ (f sval typ val).2) values
  | cfDictionary dict =>
      Forall (fun e => ∀ typ val, hasType typ val → hasType typ (f e.2 typ val).2) dict
  | _ => True
  end →
  ∀ typ val, hasType typ val → hasType typ (dispatch ext p f pval typ val).2.
Proof.
  intros [Hplist Htext] Hchildren typ val Htyped. unfold dispatch.
  destruct (isEmptyInterface typ) eqn:Hany.
  { destruct typ; try discriminate. destruct (valueInterface pval); [exact I|exact Htyped]. }
  destruct (plistUnmarshaler ext typ) as [receiver|] eqn:Hhook.
  { eapply Hplist; eauto. }
  assert (∀ s, hasType typ
            (match Kind typ with
             | reflect.String => succeed (VString s)
             | _ => if lax p then unmarshalLaxString ext s typ val
                    else fail (incompatibleDecodeTypeError typ "string") val
             end).2) as Hstring.
  { intros s. destruct (Kind typ) eqn:Hkind; simpl;
      try (destruct (lax p); [apply unmarshalLaxString_hasType|]; exact Htyped).
    destruct typ; try discriminate. simpl in *. exact Hkind. }
  destruct pval as [|s|signed value|wide value|b|b|t|u|values|dict|goType].
  - destruct (if isTimeType typ then None else textUnmarshaler ext typ); exact Htyped.
  - destruct (isTimeType typ) eqn:Htime; simpl.
    + apply Hstring.
    + destruct (textUnmarshaler ext typ) as [receiver|] eqn:Hthook;
        [eapply Htext; eauto|apply Hstring].
  - destruct (if isTimeType typ then None else textUnmarshaler ext typ); [exact Htyped|].
    destruct (Kind typ) eqn:Hkind; simpl; try exact Htyped;
      first [apply SetInt_hasType|apply SetUint_hasType]; rewrite Hkind; reflexivity.
  - destruct (if isTimeType typ then None else textUnmarshaler ext typ); [exact Htyped|].
    destruct (Kind typ) eqn:Hkind; simpl; try exact Htyped;
      apply SetFloat_hasType; rewrite Hkind; reflexivity.
  - destruct (if isTimeType typ then None else textUnmarshaler ext typ); [exact Htyped|].
    destruct (Kind typ) eqn:Hkind; simpl; try exact Htyped.
    destruct typ; try discriminate. simpl in *. rewrite Hkind. reflexivity.
  - destruct (if isTimeType typ then None else textUnmarshaler ext typ); [exact Htyped|].
    destruct typ as [| | |nm elem|nm len elem| | | |]; try exact Htyped.
    + destruct (Kind elem) eqn:Hkind; try exact Htyped.
      destruct elem as [nm' k| | | | | | | |]; try discriminate. simpl.
      apply Forall_fmap, Forall_true. intros x. exact (byteValue_hasType nm' k x Hkind).
    + destruct (Kind elem) eqn:Hkind; try exact Htyped.
      destruct (Z.ltb_spec (Z.of_nat len) (Z.of_nat (length b))); [exact Htyped|].
      destruct val as [| | | | | | |elems| | | | |]; try exact Htyped.
      destruct Htyped as [Hlen Helems].
      destruct elem as [nm' k| | | | | | | |]; try discriminate. simpl. split.
      * rewrite length_app, length_fmap, length_drop. lia.
      * apply Forall_app. split; [|apply Forall_drop; exact Helems].
        apply Forall_fmap, Forall_true. intros x. exact (byteValue_hasType nm' k x Hkind).
  - destruct (isTimeType typ) eqn:Htime; simpl; [|exact Htyped].
    destruct typ; try discriminate. exact I.
  - destruct (if isTimeType typ then None else textUnmarshaler ext typ); [exact Htyped|].
    destruct (isUIDType typ) eqn:Huid.
    + destruct typ; try discriminate. simpl. unfold wrap_unsigned. simpl.
      apply Z.mod_pos_bound. lia.
    + destruct (Kind typ) eqn:Hkind; simpl; try exact Htyped;
        first [apply SetInt_hasType|apply SetUint_hasType]; rewrite Hkind; reflexivity.
  - destruct (if isTimeType typ then None else textUnmarshaler ext typ); [exact Htyped|].
    apply unmarshalArrayWith_hasType; assumption.
  - destruct (if isTimeType typ then None else textUnmarshaler ext typ); [exact Htyped|].
    apply unmarshalDictionaryWith_hasType; assumption.
  - destruct (if isTimeType typ then None else textUnmarshaler ext typ); exact Htyped.
Qed.

(** X20.  Decoding keeps the destination well typed.  When the hooks keep
    their receivers well typed, every decode of any node into any well-typed
    destination leaves it well typed, on success, on an error and on a
    panic alike: slices, arrays, maps, records and pointers keep the shape
    of their type all the way down, an array keeps its length, and every
    integer stored lies in the range of its kind. *)
Theorem X20_decode_keeps_destination_well_typed ext p pval :
  hooksPreserveTypes ext →
  ∀ typ val, hasType typ val → hasType typ (unmarshal ext p pval typ val).2.
Proof.
  intros Hhooks.
  induction pval as [|s|signed value|wide value|b|b|t|u|values IH|dict IH|goType]
    using cfValue_tree_ind; intros typ val Htyped; rewrite unmarshal_unfold;
    try exact Htyped; apply resolve_hasType; try exact Htyped;
    apply dispatch_hasType; try exact Hhooks; try exact I; exact IH.
Qed.

(** ** The further properties at concrete inputs *)

Lemma X1_witness :
  cfBoolean true ≠ cfNil ∧
  unmarshal Sample.externals Sample.strict (cfBoolean true) (TPtr Sample.intT) (VPtr None)
  = ((unmarshal Sample.externals Sample.strict (cfBoolean true) Sample.intT (VInt 0)).1,
     VPtr (Some (unmarshal Sample.externals Sample.strict (cfBoolean true)
                   Sample.intT (VInt 0)).2)).
Proof.
  assert (cfBoolean true ≠ cfNil) as Hnil by discriminate.
  split; [exact Hnil|].
  exact (X1_pointer_destination Sample.externals Sample.strict (cfBoolean true)
           Sample.intT (VPtr None) Hnil).
Defined.

Lemma X2_witness :
  known (cfArray [cfNil; cfUID 7]) = true ∧
  ∃ d, valueInterface (cfArray [cfNil; cfUID 7]) = Some d ∧
       unmarshal SampleHooks.externals Sample.relaxed (cfArray [cfNil; cfUID 7])
         (TInterface "" 0) (VInterface (Some (stringType, VString "old")))
       = succeed (VInterface (Some d)).
Proof.
  split; [reflexivity|].
  exact (X2_any_slot_never_fails SampleHooks.externals Sample.relaxed
           (cfArray [cfNil; cfUID 7]) "" (VInterface (Some (stringType, VString "old")))
           eq_refl).
Defined.

Lemma X3_witness :
  Kind SampleHooks.levelT ≠ reflect.Ptr ∧ isEmptyInterface SampleHooks.levelT = false ∧
  plistUnmarshaler SampleHooks.externals SampleHooks.levelT = None ∧
  unmarshal SampleHooks.externals Sample.strict (cfDate zeroTime) SampleHooks.levelT (VInt 3)
  = fail (incompatibleDecodeTypeError SampleHooks.levelT "date") (VInt 3).
Proof.
  assert (Kind SampleHooks.levelT ≠ reflect.Ptr) as Hptr by (simpl; discriminate).
  split; [exact Hptr|]. split; [reflexivity|]. split; [reflexivity|].
  exact (proj2 (proj2 (X3_date_into_timestamp_only SampleHooks.externals Sample.strict
                         zeroTime SampleHooks.levelT (VInt 3) Hptr eq_refl eq_refl)) eq_refl).
Defined.

Lemma X4_witness :
  cfArray [cfNil; cfNil] ≠ cfNil ∧ Kind SampleHooks.rawT ≠ reflect.Ptr ∧
  isEmptyInterface SampleHooks.rawT = false ∧
  unmarshal SampleHooks.externals Sample.strict (cfArray [cfNil; cfNil])
    SampleHooks.rawT (VInt 0)
  = succeed (VInt 2) ∧
  unmarshal SampleHooks.externals Sample.strict (cfNumber true 5)
    SampleHooks.levelT (VInt 0)
  = fail (incompatibleDecodeTypeError SampleHooks.levelT "integer") (VInt 0).
Proof.
  assert (cfArray [cfNil; cfNil] ≠ cfNil) as Hnil by discriminate.
  assert (Kind SampleHooks.rawT ≠ reflect.Ptr) as Hptr by (simpl; discriminate).
  split; [exact Hnil|]. split; [exact Hptr|]. split; [reflexivity|]. split.
  - exact (proj1 (X4_hooks_precede_dispatch SampleHooks.externals Sample.strict
                    (cfArray [cfNil; cfNil]) SampleHooks.rawT (VInt 0) Hnil Hptr eq_refl)
             _ eq_refl).
  - exact (proj2 (X4_hooks_precede_dispatch SampleHooks.externals Sample.strict
                    (cfNumber true 5) SampleHooks.levelT (VInt 0)
                    ltac:(discriminate) Hptr eq_refl)
             _ eq_refl eq_refl eq_refl).
Defined.

Lemma X5_witness :
  plistUnmarshaler Sample.externals timeType = None ∧
  unmarshal Sample.externals Sample.relaxed (cfString "yesterday") timeType (VTime zeroTime)
  = fail (errExternal "parsing time: cannot parse") (VTime zeroTime).
Proof.
  split; [reflexivity|].
  exact (X5_string_into_timestamp Sample.externals Sample.relaxed "yesterday"
           (VTime zeroTime) eq_refl).
Defined.

Lemma X6_witness :
  Kind Sample.boolT ≠ reflect.Slice ∧ Kind Sample.boolT ≠ reflect.Array ∧
  unmarshalArray Sample.externals Sample.strict [cfBoolean true] Sample.boolT (VBool false)
  = fail (incompatibleDecodeTypeError Sample.boolT "array") (VBool false) ∧
  aggregated (unmarshalArray Sample.externals Sample.strict [cfString "x"]
                (TSlice "" Sample.boolT) (VSlice [] 0)).1.
Proof.
  assert (Kind Sample.boolT ≠ reflect.Slice) as Hslice by (simpl; discriminate).
  assert (Kind Sample.boolT ≠ reflect.Array) as Harray by (simpl; discriminate).
  split; [exact Hslice|]. split; [exact Harray|]. split.
  - exact (proj1 (X6_container_decode_reports Sample.externals Sample.strict
                    Sample.boolT (VBool false)) [cfBoolean true] Hslice Harray).
  - exact (proj1 (proj2 (proj2 (X6_container_decode_reports Sample.externals Sample.strict
                                  (TSlice "" Sample.boolT) (VSlice [] 0))))
             [cfString "x"] eq_refl).
Defined.

Lemma X7_witness :
  noHook Sample.externals Sample.int8T ∧ 0 ≤ 300 < 2 ^ 64 ∧
  isIntKind (Kind Sample.int8T) = true ∧
  ∃ i, unmarshal Sample.externals Sample.strict (cfNumber false 300) Sample.int8T (VInt 0)
       = succeed (VInt i) ∧
       - 2 ^ (8 - 1) ≤ i < 2 ^ (8 - 1) ∧ i mod 2 ^ 8 = 300 mod 2 ^ 8.
Proof.
  assert (noHook Sample.externals Sample.int8T) as Hhook by (split; reflexivity).
  assert (0 ≤ 300 < 2 ^ 64) as Hvalue by lia.
  split; [exact Hhook|]. split; [exact Hvalue|]. split; [reflexivity|].
  destruct (proj1 (X7_number_into_integer Sample.externals Sample.strict false 300
                     Sample.int8T (VInt 0) Hhook Hvalue) eq_refl)
    as (i & Hdec & Hrange & Hmod & _).
  exists i. split; [exact Hdec|]. split; [exact Hrange|exact Hmod].
Defined.

Lemma X8_witness :
  noHook Sample.externals uidType ∧ 0 ≤ 9 < 2 ^ 64 ∧
  isUIDType uidType || isIntKind (Kind uidType) || isUintKind (Kind uidType) = true ∧
  unmarshal Sample.externals Sample.strict (cfUID 9) uidType (VUint 0)
  = unmarshal Sample.externals Sample.strict (cfNumber true 9) uidType (VUint 0).
Proof.
  assert (noHook Sample.externals uidType) as Hhook by (split; reflexivity).
  assert (0 ≤ 9 < 2 ^ 64) as Hu by lia.
  split; [exact Hhook|]. split; [exact Hu|]. split; [reflexivity|].
  exact (X8_uid_decodes_as_number Sample.externals Sample.strict true 9 uidType (VUint 0)
           Hhook Hu eq_refl).
Defined.

Lemma X9_witness :
  scalar (cfString "abc") = true ∧ Kind Sample.intT ≠ reflect.Ptr ∧
  isEmptyInterface Sample.intT = false ∧ noHook Sample.externals Sample.intT ∧
  (unmarshal Sample.externals Sample.relaxed (cfString "abc") Sample.intT (VInt 7)).1
    ≠ Returns None ∧
  (unmarshal Sample.externals Sample.relaxed (cfString "abc") Sample.intT (VInt 7)).2
    = VInt 7.
Proof.
  assert (Kind Sample.intT ≠ reflect.Ptr) as Hptr by (simpl; discriminate).
  assert (noHook Sample.externals Sample.intT) as Hhook by (split; reflexivity).
  assert ((unmarshal Sample.externals Sample.relaxed (cfString "abc") Sample.intT (VInt 7)).1
          ≠ Returns None) as Hfails by (vm_compute; discriminate).
  split; [reflexivity|]. split; [exact Hptr|]. split; [reflexivity|].
  split; [exact Hhook|]. split; [exact Hfails|].
  exact (X9_scalar_failure_writes_nothing Sample.externals Sample.relaxed (cfString "abc")
           Sample.intT (VInt 7) eq_refl Hptr eq_refl Hhook Hfails).
Defined.


Lemma X11_witness :
  0 ≤ 0 < 5 ∧ 5 < 2 ^ 62 ∧ (Z.to_nat 5 ≤ 9)%nat ∧
  5 ≤ growLoop (Z.to_nat 5) 0 5 ≤ Z.max 4 (2 * (5 - 1)) ∧
  growLoop 9 0 5 = growLoop (Z.to_nat 5) 0 5.
Proof.
  assert (0 ≤ 0 < 5) as Hncap by lia.
  assert (5 < 2 ^ 62) as Hcnt by lia.
  assert (Z.to_nat 5 ≤ 9)%nat as Hfuel by lia.
  split; [exact Hncap|]. split; [exact Hcnt|]. split; [exact Hfuel|].
  exact (proj2 (X11_growth_ends_within_twice_the_need 0 5 9 Hncap Hcnt Hfuel)).
Defined.

Lemma X12_witness :
  (length [cfBoolean true] ≤ 3)%nat ∧
  ∃ elems',
    (unmarshalArray Sample.externals Sample.strict [cfBoolean true]
       (TArray "" 3 Sample.boolT) (VArray [VBool false; VBool true; VBool true])).2
    = VArray elems' ∧
    length elems' = length [VBool false; VBool true; VBool true] ∧
    ∀ j, (length [cfBoolean true] ≤ j)%nat →
         elems' !! j = [VBool false; VBool true; VBool true] !! j.
Proof.
  assert (length [cfBoolean true] ≤ 3)%nat as Hroom by (simpl; lia).
  split; [exact Hroom|].
  exact (X12_fixed_array_tail_untouched Sample.externals Sample.strict [cfBoolean true]
           "" 3 Sample.boolT [VBool false; VBool true; VBool true] Hroom).
Defined.


Lemma X14_witness :
  let typ := TStruct "T" [("A", true, Sample.intT); ("B", true, Sample.boolT)] in
  let tinfo := {| fields := [{| name := "A"; idx := 0 |}; {| name := "B"; idx := 1 |}] |} in
  let val := VStruct [VInt 5; VBool true] in
  Kind typ = reflect.Struct ∧ getTypeInfo Sample.externals typ = inl tinfo ∧
  (∀ finfo, finfo ∈ fields tinfo → name finfo ∉ [("Z", cfString "q")].*1) ∧
  unmarshalDictionary Sample.externals Sample.strict [("Z", cfString "q")] typ val
  = succeed val.
Proof.
  intros typ tinfo val.
  assert (∀ finfo, finfo ∈ fields tinfo → name finfo ∉ [("Z", cfString "q")].*1) as Hnone.
  { intros finfo Hin Hkey. simpl in Hin, Hkey.
    apply elem_of_cons in Hkey as [Hkey|Hkey]; [|apply elem_of_nil in Hkey; contradiction].
    apply elem_of_cons in Hin as [->|Hin]; [discriminate|].
    apply elem_of_cons in Hin as [->|Hin]; [discriminate|].
    apply elem_of_nil in Hin. contradiction. }
  split; [reflexivity|]. split; [reflexivity|]. split; [exact Hnone|].
  exact (proj2 (X14_record_nothing_to_decode Sample.externals Sample.strict
                  [("Z", cfString "q")] typ val eq_refl) tinfo eq_refl Hnone).
Defined.

Lemma X15_witness :
  let typ := TStruct "T" [("A", true, Sample.intT); ("b", false, Sample.boolT);
                          ("C", true, Sample.boolT)] in
  let tinfo := {| fields := [{| name := "A"; idx := 0 |}; {| name := "b"; idx := 1 |};
                             {| name := "C"; idx := 2 |}] |} in
  let val := VStruct [VInt 0; VBool false; VBool false] in
  let dict := [("A", cfNumber true 5); ("b", cfBoolean true); ("C", cfString "x")] in
  Kind typ = reflect.Struct ∧ getTypeInfo Sample.externals typ = inl tinfo ∧
  NoDup (idx <$> fields tinfo) ∧
  noFieldPanic (unmarshal Sample.externals Sample.strict) dict (fields tinfo) typ val ∧
  (unmarshalDictionary Sample.externals Sample.strict dict typ val).1
  = Returns (aggregate (fieldErrors (unmarshal Sample.externals Sample.strict) dict
                          (fields tinfo) typ val)).
Proof.
  intros typ tinfo val dict.
  assert (NoDup (idx <$> fields tinfo)) as Hdistinct.
  { simpl. repeat (apply NoDup_cons_2;
      [intros H; repeat (apply elem_of_cons in H as [H|H]; [discriminate|]);
       apply elem_of_nil in H; contradiction|]).
    apply NoDup_nil_2. }
  assert (noFieldPanic (unmarshal Sample.externals Sample.strict) dict (fields tinfo) typ val)
    as Hreturns.
  { intros finfo ent Hin Hlast. simpl in Hin.
    apply elem_of_cons in Hin as [->|Hin];
      [|apply elem_of_cons in Hin as [->|Hin];
        [|apply elem_of_cons in Hin as [->|Hin];
          [|apply elem_of_nil in Hin; contradiction]]];
      vm_compute in Hlast; injection Hlast as <-;
      eexists _, _, _; (split; [reflexivity|]); intros Hset; try discriminate;
      eexists _, _; vm_compute; reflexivity. }
  split; [reflexivity|]. split; [reflexivity|]. split; [exact Hdistinct|].
  split; [exact Hreturns|].
  exact (proj1 (X15_record_field_errors Sample.externals Sample.strict dict typ val tinfo
                  eq_refl eq_refl Hdistinct Hreturns)).
Defined.

Lemma X16_witness :
  ConvertibleTo_string stringType = true ∧
  ∃ m',
    (unmarshalDictionary Sample.externals Sample.strict [("a", cfNumber true 1)]
       (TMap "" stringType Sample.intT) (VMap (Some {["z" := VInt 9]}))).2
    = VMap (Some m') ∧
    m' !! "z" = Some (VInt 9).
Proof.
  split; [reflexivity|].
  destruct (X16_map_keeps_other_entries Sample.externals Sample.strict
              [("a", cfNumber true 1)] "" stringType Sample.intT
              (Some {["z" := VInt 9]}) eq_refl) as (m' & Hmap & Hkeeps).
  exists m'. split; [exact Hmap|]. rewrite (Hkeeps "z"); [reflexivity|].
  simpl. intros Hin.
  apply elem_of_cons in Hin as [Hin|Hin]; [discriminate|].
  apply elem_of_nil in Hin. contradiction.
Defined.

Lemma X17_witness :
  let dict := [("a", cfNumber true 1); ("b", cfString "x")] in
  ConvertibleTo_string stringType = true ∧
  noMapPanic (unmarshal Sample.externals Sample.strict) Sample.intT dict ∧
  (unmarshalDictionary Sample.externals Sample.strict dict
     (TMap "" stringType Sample.intT) (VMap None)).1
  = Returns (aggregate (mapErrors (unmarshal Sample.externals Sample.strict)
                          Sample.intT dict)).
Proof.
  intros dict.
  assert (noMapPanic (unmarshal Sample.externals Sample.strict) Sample.intT dict)
    as Hreturns.
  { intros k sval Hin.
    apply elem_of_cons in Hin as [Hin|Hin];
      [|apply elem_of_cons in Hin as [Hin|Hin]; [|apply elem_of_nil in Hin; contradiction]];
      injection Hin as -> ->; eexists _, _; vm_compute; reflexivity. }
  split; [reflexivity|]. split; [exact Hreturns|].
  exact (proj1 (X17_map_value_errors Sample.externals Sample.strict dict ""
                  stringType Sample.intT None eq_refl Hreturns)).
Defined.

Lemma X18_witness :
  let pval := cfArray [cfNumber true 1; cfDictionary [("k", cfBoolean true)]] in
  (∀ typ, plistUnmarshaler Sample.externals typ = None) ∧ stringFree pval = true ∧
  unmarshal Sample.externals Sample.strict pval (TSlice "" anyType) (VSlice [] 0)
  = unmarshal Sample.externals Sample.relaxed pval (TSlice "" anyType) (VSlice [] 0).
Proof.
  intros pval.
  assert (∀ typ, plistUnmarshaler Sample.externals typ = None) as Hplist
    by (intros typ; reflexivity).
  split; [exact Hplist|]. split; [reflexivity|].
  exact (X18_lax_only_matters_for_strings Sample.externals Sample.strict Sample.relaxed
           pval Hplist eq_refl (TSlice "" anyType) (VSlice [] 0)).
Defined.


Lemma X20_witness :
  let typ := TSlice "" Sample.int8T in
  hooksPreserveTypes Sample.externals ∧ hasType typ (VSlice [VInt 5] 1) ∧
  hasType typ (unmarshal Sample.externals Sample.strict (cfArray [cfNumber false 300])
                 typ (VSlice [VInt 5] 1)).2.
Proof.
  intros typ.
  assert (hooksPreserveTypes Sample.externals) as Hhooks
    by (split; intros; discriminate).
  assert (hasType typ (VSlice [VInt 5] 1)) as Htyped.
  { simpl. apply Forall_cons_2; [|apply Forall_nil_2]. split; [reflexivity|simpl; lia]. }
  split; [exact Hhooks|]. split; [exact Htyped|].
  exact (X20_decode_keeps_destination_well_typed Sample.externals Sample.strict
           (cfArray [cfNumber false 300]) Hhooks typ (VSlice [VInt 5] 1) Htyped).
Defined.

(** ** Lax mode extends strict mode *)

Lemma multierror_Append_Some resultErr e : multierror_Append resultErr e ≠ None.
Proof. destruct resultErr as [[]|]; discriminate. Qed.

Section SuccessExtension.

Context (f g : cfValue → rtype → rvalue → outcome).

Lemma arrayLoop_recorded elem values n resultErr slots :
  resultErr ≠ None → (arrayLoop f elem values n resultErr slots).1 ≠ Returns None.
Proof.
  revert n resultErr slots. induction values as [|sval rest IH];
    intros n resultErr slots Hsome; simpl; [congruence|].
  destruct (slots !! n) as [slot|]; [|discriminate].
  destruct (f sval elem slot) as [[[err|]|v] slot']; simpl; try discriminate.
  - apply IH. apply multierror_Append_Some.
  - apply IH. exact Hsome.
Qed.

Lemma mapLoop_recorded elem dict resultErr m :
  resultErr ≠ None → (mapLoop f elem dict resultErr m).1 ≠ Returns None.
Proof.
  revert resultErr m. induction dict as [|[k sval] rest IH];
    intros resultErr m Hsome; simpl; [congruence|].
  destruct (f sval elem (zero elem)) as [[[err|]|v] x]; simpl; try discriminate.
  - apply IH. apply multierror_Append_Some.
  - apply IH. exact Hsome.
Qed.

Lemma structLoop_recorded (entries : gmap string (rtype → rvalue → outcome))
    fields typ val resultErr :
  resultErr ≠ None → (structLoop entries fields typ val resultErr).1 ≠ Returns None.
Proof.
  revert val resultErr. induction fields as [|finfo rest IH];
    intros val resultErr Hsome; [simpl; congruence|].
  cbn [structLoop]. unfold outcome in *.
  destruct (entries !! name finfo) as [ent|]; [|apply IH; exact Hsome].
  destruct (valueForWriting finfo typ val) as [[[ftyp canSet] fieldVal]|];
    [|discriminate].
  destruct canSet; [|apply IH; apply multierror_Append_Some].
  destruct (ent ftyp fieldVal) as [[[err|]|v] fieldVal']; simpl; try discriminate.
  - apply IH. apply multierror_Append_Some.
  - apply IH. exact Hsome.
Qed.

Lemma resolve_success_ext (k1 k2 : rtype → rvalue → outcome) :
  (∀ typ val v', k1 typ val = succeed v' → k2 typ val = succeed v') →
  ∀ typ val v', resolve k1 typ val = succeed v' → resolve k2 typ val = succeed v'.
Proof.
  intros Hk typ. induction typ; intros val v' Hdone; try (apply Hk; exact Hdone).
  simpl in *. destruct (resolve k1 typ _) as [r target] eqn:Hinner.
  injection Hdone as -> <-. rewrite (IHtyp _ _ Hinner). reflexivity.
Qed.

Lemma arrayLoop_success_ext elem values n slots slots' :
  Forall (fun sval => ∀ typ val v', f sval typ val = succeed v' →
                                   g sval typ val = succeed v') values →
  arrayLoop f elem values n None slots = (Returns None, slots') →
  arrayLoop g elem values n None slots = (Returns None, slots').
Proof.
  intros Hvalues. revert n slots.
  induction Hvalues as [|sval rest Hsval _ IH]; intros n slots Hdone; [exact Hdone|].
  simpl in *. destruct (slots !! n) as [slot|]; [|discriminate].
  destruct (f sval elem slot) as [[[err|]|v] slot'] eqn:Hf.
  - exfalso. eapply (arrayLoop_recorded elem rest (S n)); [|rewrite Hdone; reflexivity].
    first [apply multierror_Append_Some|discriminate].
  - rewrite (Hsval _ _ _ Hf). apply IH. exact Hdone.
  - discriminate.
Qed.

Lemma mapLoop_success_ext elem dict m m' :
  Forall (fun e => ∀ typ val v', f e.2 typ val = succeed v' →
                                g e.2 typ val = succeed v') dict →
  mapLoop f elem dict None m = (Returns None, m') →
  mapLoop g elem dict None m = (Returns None, m').
Proof.
  intros Hdict. revert m.
  induction Hdict as [|[k sval] rest Hsval _ IH]; intros m Hdone; [exact Hdone|].
  simpl in *. destruct (f sval elem (zero elem)) as [[[err|]|v] x] eqn:Hf.
  - exfalso. eapply (mapLoop_recorded elem rest); [|rewrite Hdone; reflexivity].
    first [apply multierror_Append_Some|discriminate].
  - rewrite (Hsval _ _ _ Hf). apply IH. exact Hdone.
  - discriminate.
Qed.

End SuccessExtension.

Lemma structLoop_success_ext (entries1 entries2 : gmap string (rtype → rvalue → outcome))
    fields typ val val' :
  (∀ k, match entries1 !! k, entries2 !! k with
        | Some a, Some b => ∀ typ val v', a typ val = succeed v' → b typ val = succeed v'
        | None, None => True
        | _, _ => False
        end) →
  structLoop entries1 fields typ val None = (Returns None, val') →
  structLoop entries2 fields typ val None = (Returns None, val').
Proof.
  intros Hagree. revert val.
  induction fields as [|finfo rest IH]; intros val Hdone; [exact Hdone|].
  cbn [structLoop] in *. unfold outcome in *.
  pose proof (Hagree (name finfo)) as Hname.
  destruct (entries1 !! name finfo) as [a|], (entries2 !! name finfo) as [b|];
    try contradiction; [|apply IH; exact Hdone].
  destruct (valueForWriting finfo typ val) as [[[ftyp canSet] fieldVal]|]; [|discriminate].
  destruct canSet.
  - destruct (a ftyp fieldVal) as [[[err|]|v] fieldVal'] eqn:Ha.
    + exfalso. eapply (structLoop_recorded entries1 rest); [|rewrite Hdone; reflexivity].
      first [apply multierror_Append_Some|discriminate].
    + rewrite (Hname _ _ _ Ha). apply IH. exact Hdone.
    + discriminate.
  - exfalso. eapply (structLoop_recorded entries1 rest); [|rewrite Hdone; reflexivity].
    first [apply multierror_Append_Some|discriminate].
Qed.

(** X21.  Lax mode extends strict mode: when no destination type has a
    custom decode hook (a hook may consult the mode itself), every decode
    that succeeds with lax mode off succeeds with the same result with lax
    mode on. *)
Theorem X21_lax_extends_strict ext p1 p2 pval :
  (∀ typ, plistUnmarshaler ext typ = None) → lax p1 = false →
  ∀ typ val v', unmarshal ext p1 pval typ val = succeed v' →
                unmarshal ext p2 pval typ val = succeed v'.
Proof.
  intros Hplist Hstrict.
  induction pval as [|s|signed value|wide value|b|b|t|u|values IH|dict IH|goType]
    using cfValue_tree_ind; intros typ val v'; rewrite !unmarshal_unfold; try tauto;
    apply resolve_success_ext; clear typ val v'; intros typ val v'; unfold dispatch;
    rewrite Hplist; try tauto.
  - rewrite Hstrict. destruct (isEmptyInterface typ); [tauto|].
    destruct (if isTimeType typ then None else textUnmarshaler ext typ); [tauto|].
    destruct (Kind typ); try tauto; discriminate.
  - destruct (isEmptyInterface typ); [tauto|].
    destruct (if isTimeType typ then None else textUnmarshaler ext typ); [tauto|].
    unfold unmarshalArrayWith. destruct typ; try tauto.
    + destruct val; try tauto. cbv zeta.
      destruct (arrayLoop (unmarshal ext p1) _ _ _ _ _) as [r backing'] eqn:Hloop.
      intros [= -> <-]. rewrite (arrayLoop_success_ext _ _ _ _ _ _ _ IH Hloop). reflexivity.
    + destruct (_ <? _); [tauto|]. destruct val; try tauto.
      destruct (arrayLoop (unmarshal ext p1) _ _ _ _ _) as [r elems'] eqn:Hloop.
      intros [= -> <-]. rewrite (arrayLoop_success_ext _ _ _ _ _ _ _ IH Hloop). reflexivity.
  - destruct (isEmptyInterface typ); [tauto|].
    destruct (if isTimeType typ then None else textUnmarshaler ext typ); [tauto|].
    unfold unmarshalDictionaryWith. destruct (Kind typ); try tauto.
    + destruct typ; try tauto. destruct val; try tauto. destruct (negb _); [tauto|].
      destruct (mapLoop (unmarshal ext p1) _ _ _ _) as [r m'] eqn:Hloop.
      intros [= -> <-]. rewrite (mapLoop_success_ext _ _ _ _ _ _ IH Hloop). reflexivity.
    + destruct (getTypeInfo ext typ); [|tauto].
      apply structLoop_success_ext. intros k. rewrite !entries_lookup.
      destruct (lastValue k dict) as [v|] eqn:Hlast; simpl; [|exact I].
      apply lastValue_elem_of in Hlast. eapply Forall_forall in IH; [|exact Hlast].
      exact IH.
Qed.

Lemma X21_witness :
  let pval := cfArray [cfString "a"; cfString "b"] in
  let typ := TSlice "" stringType in
  let v' := VSlice [VString "a"; VString "b"; VString ""; VString ""] 2 in
  (∀ typ, plistUnmarshaler Sample.externals typ = None) ∧ lax Sample.strict = false ∧
  unmarshal Sample.externals Sample.strict pval typ (VSlice [] 0) = succeed v' ∧
  unmarshal Sample.externals Sample.relaxed pval typ (VSlice [] 0) = succeed v'.
Proof.
  intros pval typ v'.
  assert (∀ typ, plistUnmarshaler Sample.externals typ = None) as Hplist
    by (intros t; reflexivity).
  assert (unmarshal Sample.externals Sample.strict pval typ (VSlice [] 0) = succeed v')
    as Hdone by (vm_compute; reflexivity).
  split; [exact Hplist|]. split; [reflexivity|]. split; [exact Hdone|].
  exact (X21_lax_extends_strict Sample.externals Sample.strict Sample.relaxed pval
           Hplist eq_refl typ (VSlice [] 0) v' Hdone).
Defined.
